(** * apertium-apy: the translation servlet (servlet.py)

    A shallow embedding of the pipeline pool, the request statistics and
    the request validation of [TranslateHandler], together with the two
    Python library facilities the code leans on ([re] and [heapq]).

    Conventions.
    - Python [int] is [Z]; list indices and [len] are [nat].
    - [datetime] values and [timedelta]s are integer microsecond counts
      ([Z]); readings of [time.time()] are [Z] seconds.
    - A Python [str] is a [string]; the patterns of servlet.py only
      distinguish ASCII characters.
    - A handler method is a function on the handler state [Handler];
      methods that can raise return a [Result] next to the state, so the
      writes done before an exception stay visible.
    - Every reading of the clock and every outcome of a subprocess is an
      explicit argument of the method that asks for it. *)

From Stdlib Require Import ZArith Lia Ascii String List.
From stdpp Require Import base option list gmap strings.
From Equations Require Import Equations.

Local Open Scope string_scope.
Local Open Scope list_scope.
Local Open Scope nat_scope.
Local Open Scope stdpp_scope.

(* ===================================================================== *)
(** * Part I: definitions *)
(* ===================================================================== *)

(** ** The fragment of Python's [re] used by servlet.py *)

Module Re.

(** Compiled patterns.  [Chr p] is any one-character item (a literal,
    a class [[...]] or a negated class [[^...]]), [Cat] is
    juxtaposition, [Opt] is [?], [Plus] is the greedy [+] and [Grp] is
    the capturing group number 1. *)
Inductive regex : Type :=
| Chr (p : ascii → bool)
| Cat (r1 r2 : regex)
| Opt (r : regex)
| Plus (r : regex)
| Grp (r : regex).

(** One attempt at a fixed start position is described by the text of
    group 1 (if it took part), the text matched and what is left. *)
Abbreviation attempt := (option string * string * string)%type.

(** The greedy [+]: [once] matches the repeated item one time.  A
    longer repetition is tried before the shorter one; [n] bounds the
    number of iterations and an iteration that consumes nothing is not
    repeated. *)
Fixpoint plus_loop (once : option string → string → list attempt)
    (n : nat) (g : option string) (s : string) : list attempt :=
  match n with
  | O => []
  | S n' =>
      '(g1, m1, s1) ← once g s;
      ((if decide (m1 = EmptyString) then []
        else '(g2, m2, s2) ← plus_loop once n' g1 s1; [(g2, m1 +:+ m2, s2)])
         ++ [(g1, m1, s1)])
  end.

(** All the ways [r] matches a prefix of [s], in the order in which a
    backtracking matcher tries them: the head is the match Python
    reports.  [fuel] is the bound handed to [plus_loop]. *)
Fixpoint match_here (r : regex) (fuel : nat) (g : option string) (s : string)
  : list attempt :=
  match r with
  | Chr p =>
      match s with
      | String c s' => if p c then [(g, String c EmptyString, s')] else []
      | EmptyString => []
      end
  | Cat r1 r2 =>
      '(g1, m1, s1) ← match_here r1 fuel g s;
      '(g2, m2, s2) ← match_here r2 fuel g1 s1;
      [(g2, m1 +:+ m2, s2)]
  | Opt r1 => match_here r1 fuel g s ++ [(g, EmptyString, s)]
  | Plus r1 => plus_loop (match_here r1 fuel) fuel g s
  | Grp r1 => '(_, m1, s1) ← match_here r1 fuel g s; [(Some m1, m1, s1)]
  end.

(** [pattern.match(s)]: the preferred match at the start of [s]. *)
Definition match_at (r : regex) (s : string) : option attempt :=
  head (match_here r (S (String.length s)) None s).

(** [re.search(r, s)] as a truth value: some position has a match. *)
Fixpoint search (r : regex) (s : string) : bool :=
  match match_at r s with
  | Some _ => true
  | None =>
      match s with
      | String _ s' => search r s'
      | EmptyString => false
      end
  end.

(** [re.sub(r, r'\1', s)]: leftmost non-overlapping matches are
    replaced by their group 1.  [skip] counts the characters of the
    current match still to be passed over.  An empty match is treated
    as no match (no pattern of servlet.py has one). *)
Fixpoint sub_from (r : regex) (skip : nat) (s : string) : string :=
  match s with
  | EmptyString => EmptyString
  | String c s' =>
      match skip with
      | S k => sub_from r k s'
      | O =>
          match match_at r s with
          | Some (g, String _ m', _) =>
              default EmptyString g +:+ sub_from r (String.length m') s'
          | _ => String c (sub_from r 0 s')
          end
      end
  end.

Definition sub (r : regex) (s : string) : string := sub_from r 0 s.

(** [re.findall(r, s)] for a pattern with one group: the group 1 texts
    of the leftmost non-overlapping matches. *)
Fixpoint findall_from (r : regex) (skip : nat) (s : string) : list string :=
  match s with
  | EmptyString => []
  | String c s' =>
      match skip with
      | S k => findall_from r k s'
      | O =>
          match match_at r s with
          | Some (g, String _ m', _) =>
              default EmptyString g :: findall_from r (String.length m') s'
          | _ => findall_from r 0 s'
          end
      end
  end.

Definition findall (r : regex) (s : string) : list string :=
  findall_from r 0 s.

(** Character items. *)
Definition one_of (cs : list ascii) : regex :=
  Chr (λ x, bool_decide (x ∈ cs)).

Definition none_of (cs : list ascii) : regex :=
  Chr (λ x, negb (bool_decide (x ∈ cs))).

(** [re.IGNORECASE]: both sides are compared in lower case. *)
Definition lower (c : ascii) : ascii :=
  let n := nat_of_ascii c in
  if bool_decide (65 ≤ n ≤ 90) then ascii_of_nat (n + 32) else c.

Definition lit_i (c : ascii) : regex :=
  Chr (λ x, bool_decide (lower x = lower c)).

End Re.

(** ** The fragment of Python's [heapq] used by servlet.py *)

Module Heapq.
Section heapq.

Context {A : Type} (less : A → A → bool).

(** The [while] loop of [_siftdown]: the hole at [pos] climbs while
    [newitem < parent].  [(pos - 1) >> 1] is [Nat.div2 (pos - 1)].  A
    read outside the list raises [IndexError] in Python; it cannot
    happen for [pos < len(heap)] and the loop stops there. *)
Equations? siftdown_loop (heap : list A) (startpos pos : nat) (newitem : A)
  : list A by wf pos lt :=
  siftdown_loop heap startpos pos newitem with decide (startpos < pos) => {
    | left _ with heap !! Nat.div2 (pos - 1) => {
        | Some parent with less newitem parent => {
            | true := siftdown_loop (<[pos := parent]> heap) startpos
                        (Nat.div2 (pos - 1)) newitem;
            | false := <[pos := newitem]> heap };
        | None := <[pos := newitem]> heap };
    | right _ := <[pos := newitem]> heap }.
Proof.
  pose proof (Nat.le_div2_diag_l (pos - 1)). lia.
Qed.

(** [_siftdown(heap, startpos, pos)]. *)
Definition siftdown (heap : list A) (startpos pos : nat) : list A :=
  match heap !! pos with
  | Some newitem => siftdown_loop heap startpos pos newitem
  | None => heap
  end.

(** Whether the loop of [_siftup] moves to the right child:
    [rightpos < endpos and not heap[childpos] < heap[rightpos]]. *)
Definition right_child_first (heap : list A) (endpos childpos : nat) : bool :=
  match heap !! childpos, heap !! (childpos + 1) with
  | Some l, Some r => bool_decide (childpos + 1 < endpos) && negb (less l r)
  | _, _ => false
  end.

(** The [while] loop of [_siftup]: the hole at [pos] sinks to a leaf,
    the smaller child moving up at each step.  The result is the list
    and the final position of the hole. *)
Equations? siftup_loop (heap : list A) (endpos pos : nat)
  : list A * nat by wf (endpos - pos) lt :=
  siftup_loop heap endpos pos with decide (2 * pos + 1 < endpos) => {
    | left _ with right_child_first heap endpos (2 * pos + 1) => {
        | b with heap !! (2 * pos + 1 + (if b then 1 else 0)) => {
            | Some child :=
                siftup_loop (<[pos := child]> heap) endpos
                  (2 * pos + 1 + (if b then 1 else 0));
            | None := (heap, pos) } };
    | right _ := (heap, pos) }.
Proof.
  destruct b; lia.
Qed.

(** [_siftup(heap, pos)]. *)
Definition siftup (heap : list A) (pos : nat) : list A :=
  match heap !! pos with
  | Some newitem =>
      let '(heap', pos') := siftup_loop heap (length heap) pos in
      siftdown (<[pos' := newitem]> heap') pos pos'
  | None => heap
  end.

(** [heapq.heappush(heap, item)]. *)
Definition heappush (heap : list A) (item : A) : list A :=
  siftdown (heap ++ [item]) 0 (length heap).

(** [heapq.heapify(x)]: [for i in reversed(range(n//2)): _siftup(x, i)]. *)
Definition heapify (x : list A) : list A :=
  foldl siftup x (reverse (seq 0 (length x / 2))).

End heapq.
End Heapq.

(** ** The data of the servlet *)

(** [translation.Pipeline] as servlet.py sees it: the three attributes it
    reads.  [pid] stands for the identity of the Python object; pipelines
    are compared by identity ([p not in to_clean]). *)
Record Pipeline : Type := mkPipeline {
  pid : nat;
  users : Z;
  lastUsage : Z;
  useCount : Z
}.

Global Instance Pipeline_eq_dec : EqDecision Pipeline.
Proof. solve_decision. Defined.

(** A pair of language codes [(l1, l2)]. *)
Abbreviation PairKey := (string * string)%type.

(** A timing sample [(before, after, length)]. *)
Abbreviation TimingSample := (Z * Z * Z)%type.

(** What servlet.py imports from modules of the repository that are not
    part of this development: [util.toAlpha3Code] and the ordering
    [translation.Pipeline.__lt__] that [heapq] compares pipelines with.
    Every result below holds for any choice of the two. *)
Class External : Type := {
  toAlpha3Code : string → string;
  Pipeline_lt : Pipeline → Pipeline → bool
}.

(** Modelled from the spec: [translation.makePipeline] is not part of the
    source at hand; by the "Pipeline" data model a new pipeline starts
    with its counters initialised (no user, no use). *)
Definition makePipeline (id : nat) : Pipeline :=
  {| pid := id; users := 0; lastUsage := 0; useCount := 0 |}.

(** Modelled from the spec: [translation.Pipeline.translate] is not part
    of the source at hand; by "Wire protocol for translate", item 6, a
    call leaves [users] as it found it, sets [lastUsage] to the start of
    the request and counts a use on successful completion. *)
Definition Pipeline_translated (start : Z) (ok : bool) (p : Pipeline) : Pipeline :=
  {| pid := pid p; users := users p; lastUsage := start;
     useCount := if ok then (useCount p + 1)%Z else useCount p |}.

(** The class attributes that [setupHandler] and the command line fix
    once.  [pairs] keeps the keys ['l1-l2'] of the dictionary of installed
    pairs.  [STAT_PERIOD_MAX_AGE] exists only if [--stat-period-max-age]
    is not 0. *)
Record Config : Type := mkConfig {
  pairs : gset string;
  max_pipes_per_pair : Z;
  min_pipes_per_pair : Z;
  max_users_per_pipe : Z;
  max_idle_secs : Z;
  restart_pipe_after : Z;
  scaleMtLogs : bool;
  STAT_PERIOD_MAX_AGE : option Z
}.

(** What a request does to the outside, in order. *)
Inductive Event : Type :=
| EvSendError (status_code : Z)
| EvSendResponse (translatedText : string)
| EvMakePipeline (pair : PairKey) (id : nat)
| EvTranslate (id : nat) (toTranslate : string).

(** The state a [TranslateHandler] works on: the class-level
    dictionaries shared by all requests, the module-level
    [missingFreqsDb] (the calls [noteUnknown(token, pair)] made so far,
    [None] when no store is configured), and the status and output of
    the request being served. *)
Record Handler : Type := mkHandler {
  config : Config;
  pipelines : gmap PairKey (list Pipeline);
  pipelines_holding : list Pipeline;
  stats_useCount : gmap PairKey Z;
  stats_timing : list TimingSample;
  missingFreqsDb : option (list (string * string));
  status : Z;
  trace : list Event;
  next_pid : nat
}.

Definition with_pipelines (v : gmap PairKey (list Pipeline)) (h : Handler) : Handler :=
  mkHandler (config h) v (pipelines_holding h) (stats_useCount h)
    (stats_timing h) (missingFreqsDb h) (status h) (trace h) (next_pid h).

Definition with_holding (v : list Pipeline) (h : Handler) : Handler :=
  mkHandler (config h) (pipelines h) v (stats_useCount h)
    (stats_timing h) (missingFreqsDb h) (status h) (trace h) (next_pid h).

Definition with_useCount (v : gmap PairKey Z) (h : Handler) : Handler :=
  mkHandler (config h) (pipelines h) (pipelines_holding h) v
    (stats_timing h) (missingFreqsDb h) (status h) (trace h) (next_pid h).

Definition with_timing (v : list TimingSample) (h : Handler) : Handler :=
  mkHandler (config h) (pipelines h) (pipelines_holding h) (stats_useCount h)
    v (missingFreqsDb h) (status h) (trace h) (next_pid h).

Definition with_missing (v : option (list (string * string))) (h : Handler) : Handler :=
  mkHandler (config h) (pipelines h) (pipelines_holding h) (stats_useCount h)
    (stats_timing h) v (status h) (trace h) (next_pid h).

Definition with_status (v : Z) (h : Handler) : Handler :=
  mkHandler (config h) (pipelines h) (pipelines_holding h) (stats_useCount h)
    (stats_timing h) (missingFreqsDb h) v (trace h) (next_pid h).

Definition emit (e : Event) (h : Handler) : Handler :=
  mkHandler (config h) (pipelines h) (pipelines_holding h) (stats_useCount h)
    (stats_timing h) (missingFreqsDb h) (status h) (trace h ++ [e]) (next_pid h).

Definition with_next_pid (v : nat) (h : Handler) : Handler :=
  mkHandler (config h) (pipelines h) (pipelines_holding h) (stats_useCount h)
    (stats_timing h) (missingFreqsDb h) (status h) (trace h) v.

(** The handler class before any request: empty pool, empty statistics. *)
Definition fresh_handler (c : Config) (db : option (list (string * string))) : Handler :=
  mkHandler c ∅ [] ∅ [] db 200 [] 0.

(** A new request on the same class state: status 200, nothing sent. *)
Definition new_request (h : Handler) : Handler :=
  mkHandler (config h) (pipelines h) (pipelines_holding h) (stats_useCount h)
    (stats_timing h) (missingFreqsDb h) 200 [] (next_pid h).

(** ** Exceptions *)

Inductive Exn : Type :=
| IndexError
| KeyError
| AttributeError
| HTTPError (status_code : Z)
| PipelineError.

Inductive Result (A : Type) : Type :=
| Ok (a : A)
| Raise (e : Exn).
Arguments Ok {A} a.
Arguments Raise {A} e.

(** A method that may raise: the state it leaves is returned in both
    cases. *)
Definition M (A : Type) : Type := Handler → Result A * Handler.

Definition ret {A} (a : A) : M A := λ h, (Ok a, h).

Definition raise {A} (e : Exn) : M A := λ h, (Raise e, h).

Definition bind {A B} (m : M A) (k : A → M B) : M B :=
  λ h, match m h with
       | (Ok a, h') => k a h'
       | (Raise e, h') => (Raise e, h')
       end.

Definition modify (f : Handler → Handler) : M unit := λ h, (Ok tt, f h).

Notation "'let!' x ':=' m 'in' k" := (bind m (λ x, k))
  (at level 10, x name, m at level 100, k at level 200).
Notation "m '>>' k" := (bind m (λ _, k))
  (at level 100, k at level 200, right associativity).

(** The readings of [datetime.now()] inside one call of
    [logAfterTranslation]: [after], the stand-in for [oldest] when there
    is no sample, and the one compared with [oldest]. *)
Record LogClock : Type := mkLogClock {
  clk_after : Z;
  clk_oldest : Z;
  clk_check : Z
}.

(** The arguments of a [/translate] request ([None]: not given). *)
Record Request : Type := mkRequest {
  arg_langpair : option string;
  arg_q : option string;
  arg_markUnknown : option string
}.

(** What the world answers during one [/translate] request. *)
Record Oracle : Type := mkOracle {
  o_reject_before : Z;            (* logBeforeTranslation, on a rejected pair *)
  o_reject_clock : LogClock;      (* logAfterTranslation, on a rejected pair *)
  o_spawn_ok : bool;              (* parseModeFile and makePipeline succeed *)
  o_before : Z;                   (* logBeforeTranslation *)
  o_start : Z;                    (* time.time() when the pipeline is entered *)
  o_translated : option string;   (* pipeline.translate: its result, or it raises *)
  o_clock : LogClock;             (* logAfterTranslation *)
  o_now : PairKey → nat → Z       (* time.time() in cleanable(i, pair, _) *)
}.

(** [str.split(sep)] for a one-character separator. *)
Fixpoint split (sep : ascii) (s : string) : list string :=
  match s with
  | EmptyString => [EmptyString]
  | String c s' =>
      if decide (c = sep) then EmptyString :: split sep s'
      else match split sep s' with
           | w :: ws => String c w :: ws
           | [] => [String c EmptyString]
           end
  end.

(** ['%s-%s' % pair]. *)
Definition pair_name (pair : PairKey) : string := pair.1 +:+ "-" +:+ pair.2.

(** [set(...)] of pipelines: one entry per object. *)
Fixpoint set_of (l : list Pipeline) : list Pipeline :=
  match l with
  | [] => []
  | p :: l' => if decide (pid p ∈ pid <$> l') then set_of l' else p :: set_of l'
  end.

(** BaseHandler.send_error (tornado): the status is set and the error
    body written. *)
Definition send_error (status_code : Z) (h : Handler) : Handler :=
  emit (EvSendError status_code) (with_status status_code h).

(** BaseHandler.sendResponse, for the body of [/translate]. *)
Definition sendResponse (translatedText : string) (h : Handler) : Handler :=
  emit (EvSendResponse translatedText) h.

(** [self.get_argument(name)] without default: a missing argument is
    tornado's [MissingArgumentError], an [HTTPError] with status 400. *)
Definition get_argument (v : option string) : M string :=
  match v with
  | Some s => ret s
  | None => raise (HTTPError 400)
  end.

(** ** TranslateHandler *)

Section servlet.

Context `{External}.

(** [notePairUsage]. *)
Definition notePairUsage (pair : PairKey) (h : Handler) : Handler :=
  with_useCount
    (<[pair := (1 + default 0 (stats_useCount h !! pair))%Z]> (stats_useCount h)) h.

(** [unknownMarkRE = re.compile(r'[*]([^.,;:\t\* ]+)')]. *)
Definition unknownMarkRE : Re.regex :=
  Re.Cat (Re.one_of ["*"%char])
    (Re.Grp (Re.Plus
       (Re.none_of ["."; ","; ";"; ":"; "009"; "*"; " "]%char))).

(** [noteUnknownTokens]: one [noteUnknown(token, pair)] per match, if
    a store is configured. *)
Definition noteUnknownTokens (pair : string) (text : string) (h : Handler) : Handler :=
  match missingFreqsDb h with
  | Some db =>
      with_missing
        (Some (db ++ ((λ token, (token, pair)) <$> Re.findall unknownMarkRE text))) h
  | None => h
  end.

(** [maybeStripMarks]. *)
Definition maybeStripMarks (markUnknown : bool) (pair : PairKey)
    (translated : string) (h : Handler) : string * Handler :=
  let h1 := noteUnknownTokens (pair_name pair) translated h in
  if markUnknown then (translated, h1)
  else (Re.sub unknownMarkRE translated, h1).

(** [cleanable(i, pair, pipe)]; [now] is the reading of [time.time()]
    the second test makes. *)
Definition cleanable (c : Config) (now : Z) (i : nat) (pipe : Pipeline) : bool :=
  if bool_decide (restart_pipe_after c < useCount pipe)%Z then true
  else if bool_decide (min_pipes_per_pair c ≤ Z.of_nat i)%Z
          && bool_decide (max_idle_secs c ≠ 0%Z)
          && bool_decide (max_idle_secs c < now - lastUsage pipe)%Z
       then true
       else false.

(** [p for i, p in enumerate(pipes) if self.cleanable(i, pair, p)],
    the enumeration starting at [i]. *)
Fixpoint cleanable_from (c : Config) (now : nat → Z) (i : nat)
    (pipes : list Pipeline) : list Pipeline :=
  match pipes with
  | [] => []
  | p :: pipes' =>
      if cleanable c (now i) i p
      then p :: cleanable_from c now (S i) pipes'
      else cleanable_from c now (S i) pipes'
  end.

(** [to_clean = set(p for i, p in enumerate(pipes) if ...)].  The
    order in which Python walks a set is not fixed; here it is the
    order of the pool, and nothing below depends on it. *)
Definition to_clean (c : Config) (now : nat → Z) (pipes : list Pipeline)
  : list Pipeline :=
  set_of (cleanable_from c now 0 pipes).

(** The pool of one pair after the body of the [for] loop:
    [pipes[:] = [p for p in pipes if p not in to_clean]] and
    [heapq.heapify(pipes)]. *)
Definition clean_pool (c : Config) (now : nat → Z) (pipes : list Pipeline)
  : list Pipeline :=
  Heapq.heapify Pipeline_lt
    (filter (λ p, pid p ∉ pid <$> to_clean c now pipes) pipes).

(** The first half of [cleanPairs], the [for] loop over the pools;
    every key of the dictionary stays.  The pools are independent of
    each other, so the evicted pipelines are gathered at once. *)
Definition clean_pools (now : PairKey → nat → Z) (h : Handler) : Handler :=
  let evicted :=
    map_to_list (pipelines h) ≫=
      (λ kv, to_clean (config h) (now kv.1) kv.2) in
  with_holding (pipelines_holding h ++ evicted)
    (with_pipelines
       (map_imap (λ pair pipes, Some (clean_pool (config h) (now pair) pipes))
          (pipelines h)) h).

(** The second half:
    [pipelines_holding[:] = [p for p in pipelines_holding if p.users > 0]]. *)
Definition drain_holding (h : Handler) : Handler :=
  with_holding (filter (λ p, (0 < users p)%Z) (pipelines_holding h)) h.

(** [cleanPairs]. *)
Definition cleanPairs (now : PairKey → nat → Z) (h : Handler) : Handler :=
  drain_holding (clean_pools now h).

(** [shouldStartPipe]. *)
Definition shouldStartPipe (h : Handler) (l1 l2 : string) : bool :=
  match default [] (pipelines h !! (l1, l2)) with
  | [] => true
  | min_p :: rest =>
      bool_decide (Z.of_nat (length (min_p :: rest))
                   < max_pipes_per_pair (config h))%Z
      && bool_decide (max_users_per_pipe (config h) < users min_p)%Z
  end.

(** [self.pipelines[pair][0]]. *)
Definition first_pipe (pair : PairKey) : M Pipeline :=
  λ h, match pipelines h !! pair with
       | Some (p :: _) => (Ok p, h)
       | Some [] => (Raise IndexError, h)
       | None => (Raise KeyError, h)
       end.

(** [translation.makePipeline(self.getPipeCmds(l1, l2))]: the mode
    file of an installed pair is parsed (and cached) and its commands
    are started; [spawn_ok] tells whether that works.  A pair that is
    not installed has no mode file ([KeyError]). *)
Definition start_pipeline (pair : PairKey) (spawn_ok : bool) : M Pipeline :=
  λ h, if negb (bool_decide (pair_name pair ∈ pairs (config h)))
       then (Raise KeyError, h)
       else if negb spawn_ok then (Raise PipelineError, h)
       else (Ok (makePipeline (next_pid h)),
             emit (EvMakePipeline pair (next_pid h))
               (with_next_pid (S (next_pid h)) h)).

(** [getPipeline]. *)
Definition getPipeline (pair : PairKey) (spawn_ok : bool) : M Pipeline :=
  λ h,
    if shouldStartPipe h pair.1 pair.2 then
      (modify (λ h, if decide (pipelines h !! pair = None)
                    then with_pipelines (<[pair := []]> (pipelines h)) h
                    else h) >>
       let! p := start_pipeline pair spawn_ok in
       modify (λ h, with_pipelines
                      (<[pair := Heapq.heappush Pipeline_lt
                                   (default [] (pipelines h !! pair)) p]>
                         (pipelines h)) h) >>
       first_pipe pair) h
    else first_pipe pair h.

(** [logAfterTranslation].  The ScaleMT log line written when
    [scaleMtLogs] is set touches nothing of the state. *)
Definition logAfterTranslation (before : Z) (length : Z) (clk : LogClock) : M unit :=
  λ h,
    if bool_decide (status h = 200%Z) then
      let oldest := match stats_timing h with
                    | sample :: _ => sample.1.1
                    | [] => clk_oldest clk
                    end in
      match STAT_PERIOD_MAX_AGE (config h) with
      | None => (Raise AttributeError, h)
      | Some max_age =>
          if bool_decide (max_age < clk_check clk - oldest)%Z then
            match stats_timing h with
            | _ :: timing' =>
                (Ok tt, with_timing (timing' ++ [(before, clk_after clk, length)]) h)
            | [] => (Raise IndexError, h)
            end
          else
            (Ok tt, with_timing (stats_timing h ++ [(before, clk_after clk, length)]) h)
      end
    else (Ok tt, h).

(** [getPairOrError].  Unpacking anything but two codes is the
    [ValueError] the method catches. *)
Definition getPairOrError (langpair : string) (text_length : Z)
    (before : Z) (clk : LogClock) : M (option PairKey) :=
  match toAlpha3Code <$> split "|" langpair with
  | [l1; l2] =>
      λ h, if bool_decide (pair_name (l1, l2) ∈ pairs (config h))
           then (Ok (Some (l1, l2)), h)
           else (modify (send_error 400) >>
                 logAfterTranslation before text_length clk >>
                 ret None) h
  | _ =>
      modify (send_error 400) >>
      logAfterTranslation before text_length clk >>
      ret None
  end.

(** A change of the attributes of the pipeline objects, seen through
    every reference the handler keeps to them. *)
Definition map_pipes (upd : Pipeline → Pipeline) (h : Handler) : Handler :=
  with_holding (upd <$> pipelines_holding h)
    (with_pipelines ((λ pipes : list Pipeline, upd <$> pipes) <$> pipelines h) h).

(** [markUnknown in ['yes', 'true', '1']]. *)
Definition wants_marks (markUnknown : string) : bool :=
  bool_decide (markUnknown ∈ ["yes"; "true"; "1"]).

(** [yield pipeline.translate(...)]: the call is recorded, the
    pipeline object is updated wherever it is kept, and the call
    returns its text or raises. *)
Definition translate (pipeline : Pipeline) (toTranslate : string)
    (start : Z) (out : option string) : M string :=
  λ h,
    let upd := λ p, if decide (pid p = pid pipeline)
                    then Pipeline_translated start (bool_decide (is_Some out)) p
                    else p in
    let h1 := emit (EvTranslate (pid pipeline) toTranslate)
                (map_pipes upd h) in
    match out with
    | Some translated => (Ok translated, h1)
    | None => (Raise PipelineError, h1)
    end.

(** [translateAndRespond]. *)
Definition translateAndRespond (pair : PairKey) (pipeline : Pipeline)
    (toTranslate : string) (markUnknown : string) (o : Oracle) : M unit :=
  let markUnknown := wants_marks markUnknown in
  modify (notePairUsage pair) >>
  let before := o_before o in
  let! translated := translate pipeline toTranslate (o_start o) (o_translated o) in
  logAfterTranslation before (Z.of_nat (String.length toTranslate)) (o_clock o) >>
  let! text := (λ h, let '(t, h') := maybeStripMarks markUnknown pair translated h
                     in (Ok t, h')) in
  modify (sendResponse text) >>
  modify (cleanPairs (o_now o)).

(** [TranslateHandler.get].  [getFormat] only chooses the names of
    the formatters handed to the pipeline and is left out. *)
Definition get (req : Request) (o : Oracle) : M unit :=
  let! langpair := get_argument (arg_langpair req) in
  let! q := get_argument (arg_q req) in
  let! pair := getPairOrError langpair (Z.of_nat (String.length q))
                 (o_reject_before o) (o_reject_clock o) in
  match pair with
  | Some (l1, l2) =>
      let! pipeline := getPipeline (l1, l2) (o_spawn_ok o) in
      translateAndRespond (l1, l2) pipeline q
        (default "yes" (arg_markUnknown req)) o
  | None => ret tt
  end.

(** A request from start to end: tornado answers an uncaught
    [HTTPError] with its status and any other exception with 500. *)
Definition serve (req : Request) (o : Oracle) (h : Handler) : Handler :=
  match get req o (new_request h) with
  | (Ok _, h') => h'
  | (Raise (HTTPError status_code), h') => send_error status_code h'
  | (Raise _, h') => send_error 500 h'
  end.

(** The operations on the pool, for runs of any length: acquiring a
    pipeline, the janitor, and a change of the attributes of the
    pipeline objects made behind the pool's back by the translations
    in flight. *)
Inductive Op : Type :=
| OpGetPipeline (pair : PairKey) (spawn_ok : bool)
| OpCleanPairs (now : PairKey → nat → Z)
| OpTouch (f : Pipeline → Z * Z * Z).

Definition touch (f : Pipeline → Z * Z * Z) (h : Handler) : Handler :=
  map_pipes (λ p, mkPipeline (pid p) (f p).1.1 (f p).1.2 (f p).2) h.

Definition step (op : Op) (h : Handler) : Handler :=
  match op with
  | OpGetPipeline lp spawn_ok => (getPipeline lp spawn_ok h).2
  | OpCleanPairs now => cleanPairs now h
  | OpTouch f => touch f h
  end.

Definition run (ops : list Op) (h : Handler) : Handler :=
  foldl (λ h op, step op h) h ops.

End servlet.

(** ** Startup *)

(** [u8 = re.compile("UTF-?8", re.IGNORECASE)]. *)
Definition u8 : Re.regex :=
  Re.Cat (Re.lit_i "U") (Re.Cat (Re.lit_i "T") (Re.Cat (Re.lit_i "F")
    (Re.Cat (Re.Opt (Re.lit_i "-")) (Re.lit_i "8")))).

(** How a call ends: it returns, or the process exits ([sys.exit]). *)
Inductive Ending : Type :=
| Returns
| Exits (code : Z).

(** [sanity_check]; [environ] is [os.environ].  The message printed on
    stderr before the exit is left out. *)
Definition sanity_check (environ : gmap string string) : Ending :=
  let locale_vars := ["LANG"; "LC_ALL"] in
  if negb (existsb (λ key, Re.search u8 (default "" (environ !! key))) locale_vars)
  then Exits 1
  else Returns.

(** ** The properties, in the words of the specification *)

(** A character that may follow the mark [*] inside an unknown token:
    anything but [. , ; :], tab, [*] and space. *)
Definition token_char (c : ascii) : bool :=
  negb (bool_decide (c ∈ ["."; ","; ";"; ":"; "009"; "*"; " "]%char)).

Definition begins_token (s : string) : bool :=
  match s with
  | String c _ => token_char c
  | EmptyString => false
  end.

(** The longest run of token characters at the start of [s], and what
    follows it. *)
Fixpoint take_token (s : string) : string :=
  match s with
  | String c s' => if token_char c then String c (take_token s') else EmptyString
  | EmptyString => EmptyString
  end.

Fixpoint drop_token (s : string) : string :=
  match s with
  | String c s' => if token_char c then drop_token s' else s
  | EmptyString => EmptyString
  end.

(** The text without its marks: a [*] goes away exactly when a token
    character follows it, every other character stays in place. *)
Fixpoint strip_marks (s : string) : string :=
  match s with
  | String c s' =>
      if bool_decide (c = "*"%char) && begins_token s' then strip_marks s'
      else String c (strip_marks s')
  | EmptyString => EmptyString
  end.

(** The marked tokens of a text, in order, without their mark. *)
Fixpoint marked_tokens (s : string) : list string :=
  match s with
  | String c s' =>
      if bool_decide (c = "*"%char) && begins_token s'
      then take_token s' :: marked_tokens s'
      else marked_tokens s'
  | EmptyString => []
  end.

(** [s] without its first [n] characters. *)
Fixpoint skip_chars (n : nat) (s : string) : string :=
  match n, s with
  | S k, String _ s' => skip_chars k s'
  | _, _ => s
  end.

Fixpoint lower_str (s : string) : string :=
  match s with
  | String c s' => String (Re.lower c) (lower_str s')
  | EmptyString => EmptyString
  end.

(** [s] has a substring that is [UTF8] or [UTF-8] in some mix of cases. *)
Definition names_utf8 (s : string) : Prop :=
  ∃ pre mid post, s = pre +:+ mid +:+ post ∧
    (lower_str mid = "utf8" ∨ lower_str mid = "utf-8").

(** The five characters at which [u8] matches, as a test. *)
Definition starts_utf8 (s : string) : bool :=
  match s with
  | String a (String b (String c (String d r))) =>
      bool_decide (Re.lower a = "u"%char) && bool_decide (Re.lower b = "t"%char)
      && bool_decide (Re.lower c = "f"%char)
      && (bool_decide (Re.lower d = "8"%char)
          || (bool_decide (Re.lower d = "-"%char)
              && match r with
                 | String e _ => bool_decide (Re.lower e = "8"%char)
                 | EmptyString => false
                 end))
  | _ => false
  end.

(** When a new pipeline is started for a pair, as the specification puts
    it: there is no pipe for the pair, or a least-loaded pipe of the pool
    has reached [max_users_per_pipe] users and the pool has fewer than
    [max_pipes_per_pair] pipes. *)
Definition start_rule_of_spec (h : Handler) (lp : PairKey) : Prop :=
  let pool := default [] (pipelines h !! lp) in
  pool = [] ∨
  ((∃ p, p ∈ pool ∧ Forall (λ q, users p ≤ users q)%Z pool
         ∧ (max_users_per_pipe (config h) ≤ users p)%Z)
   ∧ (Z.of_nat (length pool) < max_pipes_per_pair (config h))%Z).

(** The rule the code follows: the pipe at the front of the pool (the
    one the heap hands out as least loaded) has more than
    [max_users_per_pipe] users. *)
Definition start_rule (h : Handler) (lp : PairKey) : Prop :=
  let pool := default [] (pipelines h !! lp) in
  pool = [] ∨
  ((∃ p, head pool = Some p ∧ (max_users_per_pipe (config h) < users p)%Z)
   ∧ (Z.of_nat (length pool) < max_pipes_per_pair (config h))%Z).

(** When a pipe at index [i] of its pool is evicted, as the
    specification puts it. *)
Definition evict_rule_of_spec (c : Config) (now : Z) (i : nat) (p : Pipeline) : Prop :=
  (restart_pipe_after c < useCount p)%Z ∨
  ((min_pipes_per_pair c ≤ Z.of_nat i)%Z ∧ (0 < max_idle_secs c)%Z
   ∧ (max_idle_secs c < now - lastUsage p)%Z).

(** The rule the code follows: any [max_idle_secs] other than 0 arms the
    idle test. *)
Definition evict_rule (c : Config) (now : Z) (i : nat) (p : Pipeline) : Prop :=
  (restart_pipe_after c < useCount p)%Z ∨
  ((min_pipes_per_pair c ≤ Z.of_nat i)%Z ∧ max_idle_secs c ≠ 0%Z
   ∧ (max_idle_secs c < now - lastUsage p)%Z).

(** A sample is inside the statistics window at time [now]. *)
Definition fresh_sample (max_age now : Z) (sample : TimingSample) : Prop :=
  (now - sample.1.1 ≤ max_age)%Z.

(** A [langpair] argument that is refused: it does not split at [|]
    into exactly two codes, or the pair of the canonical codes is not
    installed. *)
Definition refused `{External} (c : Config) (langpair : string) : Prop :=
  (∀ c1 c2, split "|" langpair ≠ [c1; c2]) ∨
  (∃ c1 c2, split "|" langpair = [c1; c2]
            ∧ pair_name (toAlpha3Code c1, toAlpha3Code c2) ∉ pairs c).

(** The pool of a pair ([[]] for a pair without entry). *)
Definition pool (h : Handler) (lp : PairKey) : list Pipeline :=
  default [] (pipelines h !! lp).

(** The bound on the pools that holds whatever the configuration: a
    pair without pipe always gets one. *)
Definition pool_bounded (h : Handler) : Prop :=
  ∀ lp, (Z.of_nat (length (pool h lp))
         ≤ Z.max 1 (max_pipes_per_pair (config h)))%Z.

(** The pipelines of each pool are distinct objects, made by
    [makePipeline] earlier on. *)
Definition pids_distinct (h : Handler) : Prop :=
  ∀ lp, NoDup (pid <$> pool h lp)
        ∧ Forall (λ p, pid p < next_pid h) (pool h lp).

(** A sample setting for examples: codes are left as they are, except
    [en] and [es]; pipelines are ordered by their users. *)
Definition sample_external : External :=
  {| toAlpha3Code := λ s, if decide (s = "en") then "eng"
                          else if decide (s = "es") then "spa" else s;
     Pipeline_lt := λ a b, bool_decide (users a < users b)%Z |}.

(** ** More of servlet.py *)

(** [sub in s] for two strings. *)
Fixpoint contains (sub s : string) : bool :=
  String.prefix sub s
  || match s with
     | String _ s' => contains sub s'
     | EmptyString => false
     end.

(** [sep.join(pieces)]. *)
Fixpoint join (sep : string) (pieces : list string) : string :=
  match pieces with
  | [] => EmptyString
  | [w] => w
  | w :: pieces' => w +:+ sep +:+ join sep pieces'
  end.

(** [s.count(c)] for a character [c]. *)
Fixpoint occurs (c : ascii) (s : string) : nat :=
  match s with
  | String d s' => (if decide (d = c) then 1 else 0) + occurs c s'
  | EmptyString => 0
  end.

(** The arguments [format], [deformat] and [reformat] of a request. *)
Record FormatArgs : Type := mkFormatArgs {
  arg_format : option string;
  arg_deformat : option string;
  arg_reformat : option string
}.

(** [TranslateHandler.getFormat]; an absent or empty [format] is
    false in [if dereformat]. *)
Definition getFormat (a : FormatArgs) : string * string :=
  match arg_format a with
  | Some (String c dereformat) =>
      ("apertium-des" +:+ String c dereformat, "apertium-re" +:+ String c dereformat)
  | _ =>
      let deformat := default "html" (arg_deformat a) in
      let deformat := if negb (contains "apertium-des" deformat)
                      then "apertium-des" +:+ deformat else deformat in
      let reformat := default "html-noent" (arg_reformat a) in
      let reformat := if negb (contains "apertium-re" reformat)
                      then "apertium-re" +:+ reformat else reformat in
      (deformat, reformat)
  end.

(** How a handler without shared state ends: it sends its data, it
    sends an error, or an exception leaves it. *)
Inductive Reply (A : Type) : Type :=
| Sent (data : A)
| SentError (status_code : Z)
| Uncaught (exception : string).
Arguments Sent {A} data.
Arguments SentError {A} status_code.
Arguments Uncaught {A} exception.

(** [[locale.split(';')[0] for locale in header.split(',')]], as in
    GetLocaleHandler and ListLanguageNamesHandler; [None] stands for the
    [IndexError] of [[0]] on an empty list. *)
Definition accept_locales (header : string) : option (list string) :=
  mapM (λ locale, head (split ";" locale)) (split "," header).

(** [GetLocaleHandler.get]; the argument is the Accept-Language header
    of the request, if it has one. *)
Definition GetLocaleHandler_get (accept_language : option string)
  : Reply (list string) :=
  match accept_language with
  | Some header =>
      match accept_locales header with
      | Some locales => Sent locales
      | None => Uncaught "IndexError"
      end
  | None => SentError 400
  end.

(** The loop of [ListHandler.get] for [q = 'pairs'] over the keys of
    [self.pairs]: each key is unpacked as [(l1, l2) = pair.split('-')]
    ([None] stands for the [ValueError] of that), and listed once more
    with [toAlpha2Code] when [include_deprecated_codes] is given. *)
Fixpoint list_pairs (toAlpha2Code : string → string)
    (include_deprecated_codes : bool) (keys : list string)
  : option (list (string * string)) :=
  match keys with
  | [] => Some []
  | key :: keys' =>
      match split "-" key with
      | [l1; l2] =>
          responseData ← list_pairs toAlpha2Code include_deprecated_codes keys';
          Some ((l1, l2)
                :: (if include_deprecated_codes
                    then [(toAlpha2Code l1, toAlpha2Code l2)] else [])
                ++ responseData)
      | _ => None
      end
  end.

(** [l[-n:]]. *)
Definition slice_last {A} (n : Z) (l : list A) : list A :=
  if bool_decide (0 < n)%Z then drop (length l - Z.to_nat n) l
  else drop (Z.to_nat (- n)) l.

(** [StatsHandler.get], the samples it reports on:
    [periodStats = self.stats['timing'][-numRequests:]].  [requests] is
    [int(numRequests)] when the argument is given and is a number;
    otherwise 1000 is taken. *)
Definition periodStats (requests : option Z) (h : Handler) : list TimingSample :=
  slice_last (default 1000%Z requests) (stats_timing h).

(** [chars = sum(x[2] for x in periodStats)]. *)
Definition totChars (samples : list TimingSample) : Z :=
  foldr (λ x acc, (x.2 + acc)%Z) 0%Z samples.

(** The whole-number part of the answer of [StatsHandler.get]:
    [requests], [totChars] and [holdingPipes] (the times, which are
    floating-point numbers, are left out). *)
Definition StatsHandler_get (requests : option Z) (h : Handler) : nat * Z * nat :=
  (length (periodStats requests h), totChars (periodStats requests h),
   length (pipelines_holding h)).


(** The selection of one unit in [PerWordHandler.get] ([handleOutput],
    when [pos] is given): [requestedPos = int(pos) - 1], and the first
    unit at which the running count of space-separated words passes
    [requestedPos] is sent; [None]: the loop ends and nothing is sent. *)
Fixpoint select_unit {A} (input : A → string) (requestedPos currentPos : Z)
    (toReturn : list A) : option A :=
  match toReturn with
  | [] => None
  | unit :: units =>
      let currentPos := (currentPos + Z.of_nat (length (split " " (input unit))))%Z in
      if bool_decide (requestedPos < currentPos)%Z then Some unit
      else select_unit input requestedPos currentPos units
  end.

(** The words counted up to (not including) index [i]. *)
Definition words_before {A} (input : A → string) (i : nat) (units : list A) : Z :=
  foldr (λ u acc, (Z.of_nat (length (split " " (input u))) + acc)%Z) 0%Z
    (take i units).

(** [allowedMimeTypes] of [TranslateDocHandler.get]. *)
Definition allowedMimeTypes : list (string * string) :=
  [("text/plain", "txt");
   ("text/html", "html-noent");
   ("text/rtf", "rtf");
   ("application/rtf", "rtf");
   ("application/vnd.openxmlformats-officedocument.wordprocessingml.document", "docx");
   ("application/vnd.openxmlformats-officedocument.presentationml.presentation", "pptx");
   ("application/vnd.openxmlformats-officedocument.spreadsheetml.sheet", "xlsx");
   ("application/vnd.oasis.opendocument.text", "odt");
   ("application/x-latex", "latex");
   ("application/x-tex", "latex")].

(** [allowedMimeTypes[mtype]], if [mtype in allowedMimeTypes]. *)
Definition allowed_format (mtype : string) : option string :=
  snd <$> head (filter (λ kv, kv.1 = mtype) allowedMimeTypes).

(** A [/translateDoc] request: its arguments, the length of the body of
    the uploaded file (if there is one) and what [getMimeType] answers
    for that file. *)
Record DocRequest : Type := mkDocRequest {
  doc_langpair : option string;
  doc_markUnknown : option string;
  doc_file : option Z;
  doc_mtype : string
}.

(** What [TranslateDocHandler.get] does to the outside; [pair] is the
    key ['%s-%s' % (l1, l2)] whose entry of [self.pairs] is handed to
    [translateDoc]. *)
Inductive DocEvent : Type :=
| DocSendError (status_code : Z)
| DocTranslate (format : string) (pair : string) (markUnknown : bool).

Section servlet_more.

Context `{External}.

(** [TranslateDocHandler.get]: the events in order, and the exception
    that leaves the method, if any.  After the [ValueError] of a bad
    [langpair] is answered, the method goes on and meets [l1] unbound. *)
Definition TranslateDocHandler_get (c : Config) (req : DocRequest)
  : list DocEvent * option string :=
  match doc_langpair req with
  | None => ([], Some "MissingArgumentError")
  | Some langpair =>
      let markUnknown := wants_marks (default "yes" (doc_markUnknown req)) in
      match toAlpha3Code <$> split "|" langpair with
      | [l1; l2] =>
          if bool_decide (pair_name (l1, l2) ∈ pairs c) then
            match doc_file req with
            | None => ([], Some "KeyError")
            | Some len =>
                if bool_decide (32000000 < len)%Z then ([DocSendError 413], None)
                else match allowed_format (doc_mtype req) with
                     | Some format =>
                         ([DocTranslate format (pair_name (l1, l2)) markUnknown], None)
                     | None => ([DocSendError 400], None)
                     end
            end
          else ([DocSendError 400], None)
      | _ => ([DocSendError 400], Some "UnboundLocalError")
      end
  end.

(** How [TranslatePageHandler.get] ends: like any method, or with the
    error of the HTTP client that fetches the page. *)
Inductive PageResult : Type :=
| PageDone (r : Result unit)
| PageFetchFailed.

(** [TranslatePageHandler.get].  [url] is the argument of that name;
    [fetched] is the text [htmlToText] makes of the page fetched, if the
    fetch works. *)
Definition TranslatePageHandler_get (req : Request) (url : option string)
    (fetched : option string) (o : Oracle) (h : Handler) : PageResult * Handler :=
  match (let! langpair := get_argument (arg_langpair req) in
         getPairOrError langpair (-1) (o_reject_before o) (o_reject_clock o)) h with
  | (Ok (Some (l1, l2)), h1) =>
      match getPipeline (l1, l2) (o_spawn_ok o) h1 with
      | (Ok pipeline, h2) =>
          match url with
          | None => (PageDone (Raise (HTTPError 400)), h2)
          | Some _ =>
              match fetched with
              | None => (PageFetchFailed, h2)
              | Some toTranslate =>
                  let '(r, h3) :=
                    translateAndRespond (l1, l2) pipeline toTranslate
                      (default "yes" (arg_markUnknown req)) o h2 in
                  (PageDone r, h3)
              end
          end
      | (Raise e, h2) => (PageDone (Raise e), h2)
      end
  | (Ok None, h1) => (PageDone (Ok tt), h1)
  | (Raise e, h1) => (PageDone (Raise e), h1)
  end.

(** One [/translate] request after the other, each with its own world. *)
Definition serve_all (requests : list (Request * Oracle)) (h : Handler) : Handler :=
  foldl (λ h ro, serve ro.1 ro.2 h) h requests.

End servlet_more.

(** No pipeline object sits in two places: the pools of two pairs
    share none, a pool and the holding area share none, and every held
    pipeline was made by [makePipeline] earlier on. *)
Definition pids_apart (h : Handler) : Prop :=
  (∀ lp1 lp2 p q, p ∈ pool h lp1 → q ∈ pool h lp2 → pid p = pid q → lp1 = lp2)
  ∧ (∀ lp p q, p ∈ pool h lp → q ∈ pipelines_holding h → pid p ≠ pid q)
  ∧ Forall (λ q, pid q < next_pid h) (pipelines_holding h).

(** ** Sample data *)

Definition eng_spa : PairKey := ("eng", "spa").

(** One installed pair, at most two pipes for it, five users per pipe,
    no idle limit, restart after 1000 uses, an hour of statistics. *)
Definition sample_config : Config :=
  mkConfig {["eng-spa"]} 2 0 5 0 1000 false (Some 3600000000%Z).

Definition sample_handler : Handler := fresh_handler sample_config (Some []).

Definition sample_clock : LogClock := mkLogClock 20 20 20.

(** The world of one request whose translate step answers [out]. *)
Definition sample_oracle (out : option string) : Oracle :=
  mkOracle 5 sample_clock true 10 10 out sample_clock (λ _ _, 100%Z).

Definition sample_request (langpair : string) (markUnknown : option string) : Request :=
  mkRequest (Some langpair) (Some "hello world") markUnknown.

(** A handler whose only pipe for [eng_spa] has exactly
    [max_users_per_pipe] users. *)
Definition full_pipe : Pipeline := mkPipeline 0 5 0 0.

Definition full_handler : Handler :=
  mkHandler sample_config {[eng_spa := [full_pipe]]} [] ∅ [] None 200 [] 1.

(** A pool of two pipes, the first of them worn out (1001 uses). *)
Definition worn_pipe : Pipeline := mkPipeline 0 2 50 1001.
Definition young_pipe : Pipeline := mkPipeline 1 0 60 3.

Definition worn_handler : Handler :=
  mkHandler sample_config {[eng_spa := [worn_pipe; young_pipe]]} [] ∅ [] None 200 [] 2.

(** [--max-idle-secs -1], and a pipe used at this very second. *)
Definition negative_idle_config : Config :=
  mkConfig {["eng-spa"]} 1 0 5 (-1) 1000 false (Some 3600000000%Z).

Definition just_used_pipe : Pipeline := mkPipeline 0 1 100 0.

Definition negative_idle_handler : Handler :=
  mkHandler negative_idle_config {[eng_spa := [just_used_pipe]]} [] ∅ [] None 200 [] 1.

(** [--max-pipes-per-pair 0]. *)
Definition zero_max_config : Config :=
  mkConfig {["eng-spa"]} 0 0 5 0 1000 false (Some 3600000000%Z).

(** Two samples taken in the first two microseconds, looked at three
    hours later (in microseconds). *)
Definition stale_handler : Handler :=
  mkHandler sample_config ∅ [] ∅ [(0, 1, 5); (1, 2, 5)]%Z None 200 [] 0.

Definition late_clock : LogClock :=
  mkLogClock 10800000000 10800000000 10800000000.



(** Two [/translate] requests for [en|es]; the translate step of the
    second one fails. *)
Definition two_requests : list (Request * Oracle) :=
  [(sample_request "en|es" None, sample_oracle (Some "hola mundo"));
   (sample_request "en|es" (Some "no"), sample_oracle None)].

(** A plain-text upload of forty million bytes. *)
Definition big_doc : DocRequest :=
  mkDocRequest (Some "en|es") None (Some 40000000%Z) "text/plain".

(* ===================================================================== *)
(** * Part II: lemmas and theorems *)
(* ===================================================================== *)

(** ** Facts about the matcher *)

Lemma head_bind_one {A B} (k : A → list B) (f : A → B) (l : list A) :
  (∀ x, k x = [f x]) → head (l ≫= k) = f <$> head l.
Proof.
  intros Hk. destruct l as [|x l]; [reflexivity|].
  cbn. rewrite Hk. reflexivity.
Qed.

Lemma head_app_one {A} (l : list A) (x : A) :
  head (l ++ [x]) = Some (default x (head l)).
Proof. destruct l; reflexivity. Qed.

Lemma match_here_Cat r1 r2 f g s :
  Re.match_here (Re.Cat r1 r2) f g s
  = '(g1, m1, s1) ← Re.match_here r1 f g s;
    '(g2, m2, s2) ← Re.match_here r2 f g1 s1;
    [(g2, m1 +:+ m2, s2)].
Proof. reflexivity. Qed.

Lemma match_here_Grp r f g s :
  Re.match_here (Re.Grp r) f g s
  = '(_, m1, s1) ← Re.match_here r f g s; [(Some m1, m1, s1)].
Proof. reflexivity. Qed.

Lemma match_here_Chr p f g s :
  Re.match_here (Re.Chr p) f g s
  = match s with
    | String c s' => if p c then [(g, String c EmptyString, s')] else []
    | EmptyString => []
    end.
Proof. reflexivity. Qed.

Lemma match_here_Opt r f g s :
  Re.match_here (Re.Opt r) f g s
  = Re.match_here r f g s ++ [(g, EmptyString, s)].
Proof. reflexivity. Qed.

(** The greedy [+] over a one-character item prefers the longest run. *)
Lemma plus_loop_token f n g s :
  String.length s < n →
  head (Re.plus_loop (Re.match_here (Re.Chr token_char) f) n g s)
  = if begins_token s then Some (g, take_token s, drop_token s) else None.
Proof.
  revert g s. induction n as [|n IH]; intros g s Hn; [lia|].
  destruct s as [|c s]; [reflexivity|].
  cbn [Re.plus_loop begins_token take_token drop_token].
  rewrite match_here_Chr.
  destruct (token_char c) eqn:Hc; [|reflexivity].
  cbn [mbind list_bind app]. rewrite app_nil_r.
  destruct (decide _) as [|_]; [discriminate|].
  rewrite head_app_one.
  rewrite (head_bind_one _ (λ a, (a.1.1, String c a.1.2, a.2))) by (by intros [[??]?]).
  rewrite IH by (cbn in Hn; lia).
  destruct s as [|c' s]; [reflexivity|].
  cbn [begins_token take_token drop_token]. destruct (token_char c'); reflexivity.
Qed.

(** Where and how [unknownMarkRE] matches at the start of a text. *)
Lemma match_at_unknownMarkRE s :
  Re.match_at unknownMarkRE s
  = match s with
    | String c s' =>
        if bool_decide (c = "*"%char) && begins_token s'
        then Some (Some (take_token s'), String "*" (take_token s'), drop_token s')
        else None
    | EmptyString => None
    end.
Proof.
  unfold Re.match_at, unknownMarkRE. rewrite match_here_Cat.
  destruct s as [|c s]; [reflexivity|].
  unfold Re.one_of at 1. rewrite match_here_Chr.
  destruct (bool_decide (c = "*"%char)) eqn:Hc.
  - apply bool_decide_eq_true in Hc as ->.
    rewrite bool_decide_eq_true_2 by constructor.
    cbn [mbind list_bind app andb]. rewrite app_nil_r.
    rewrite (head_bind_one _ (λ a, (a.1.1, String "*" a.1.2, a.2)))
      by (by intros [[??]?]).
    rewrite match_here_Grp.
    rewrite (head_bind_one _ (λ a, (Some a.1.2, a.1.2, a.2)))
      by (by intros [[??]?]).
    change (Re.none_of _) with (Re.Chr token_char).
    change (Re.match_here (Re.Plus ?r) ?f ?g ?t)
      with (Re.plus_loop (Re.match_here r f) f g t).
    rewrite plus_loop_token by (cbn; lia).
    destruct (begins_token s); reflexivity.
  - rewrite bool_decide_eq_false_2; [reflexivity|].
    apply bool_decide_eq_false in Hc.
    intros Hin. inversion Hin as [|? ? ? Hnil]; [done|inversion Hnil].
Qed.

(** ** The marks of unknown tokens *)

Lemma token_char_not_star c : token_char c = true → c ≠ "*"%char.
Proof. intros Hc ->. discriminate Hc. Qed.

Lemma strip_marks_token_run s :
  strip_marks s = take_token s +:+ strip_marks (drop_token s).
Proof.
  induction s as [|c s IH]; [reflexivity|].
  cbn [take_token drop_token]. destruct (token_char c) eqn:Hc; [|reflexivity].
  cbn [strip_marks String.append].
  rewrite bool_decide_eq_false_2 by (by apply token_char_not_star).
  cbn [andb]. by rewrite IH.
Qed.

Lemma marked_tokens_token_run s :
  marked_tokens s = marked_tokens (drop_token s).
Proof.
  induction s as [|c s IH]; [reflexivity|].
  cbn [drop_token]. destruct (token_char c) eqn:Hc; [|reflexivity].
  cbn [marked_tokens].
  rewrite bool_decide_eq_false_2 by (by apply token_char_not_star).
  cbn [andb]. exact IH.
Qed.

Lemma skip_take_token s : skip_chars (String.length (take_token s)) s = drop_token s.
Proof.
  induction s as [|c s IH]; [reflexivity|].
  cbn [take_token drop_token]. destruct (token_char c); [|reflexivity].
  exact IH.
Qed.

Lemma skip_chars_empty n : skip_chars n EmptyString = EmptyString.
Proof. by destruct n. Qed.

(** [re.sub] with [unknownMarkRE] removes the marks, from any position
    of the scan on. *)
Lemma sub_from_unknownMarkRE skip s :
  Re.sub_from unknownMarkRE skip s = strip_marks (skip_chars skip s).
Proof.
  revert skip. induction s as [|c s IH]; intros skip.
  - by rewrite skip_chars_empty.
  - destruct skip as [|k]; cbn [Re.sub_from skip_chars]; [|apply IH].
    rewrite match_at_unknownMarkRE. cbn [strip_marks].
    destruct (bool_decide (c = "*"%char) && begins_token s) eqn:Hm.
    + cbn [default from_option id]. rewrite IH, skip_take_token.
      symmetry. apply strip_marks_token_run.
    + rewrite IH. reflexivity.
Qed.

(** [re.findall] with [unknownMarkRE] lists the marked tokens. *)
Lemma findall_from_unknownMarkRE skip s :
  Re.findall_from unknownMarkRE skip s = marked_tokens (skip_chars skip s).
Proof.
  revert skip. induction s as [|c s IH]; intros skip.
  - by rewrite skip_chars_empty.
  - destruct skip as [|k]; cbn [Re.findall_from skip_chars]; [|apply IH].
    rewrite match_at_unknownMarkRE. cbn [marked_tokens].
    destruct (bool_decide (c = "*"%char) && begins_token s) eqn:Hm.
    + cbn [default from_option id]. rewrite IH, skip_take_token.
      by rewrite <- marked_tokens_token_run.
    + rewrite IH. reflexivity.
Qed.

(** No match of [unknownMarkRE] is empty: the scan of [Re.sub_from] and
    [Re.findall_from] never meets the case it leaves aside. *)
Lemma unknownMarkRE_never_empty s g m t :
  Re.match_at unknownMarkRE s = Some (g, m, t) → m ≠ EmptyString.
Proof.
  rewrite match_at_unknownMarkRE. destruct s as [|c s]; [discriminate|].
  destruct (_ && _); [|discriminate]. by intros [= _ <- _].
Qed.

(** ** The locale test *)

Lemma append_String c s t : String c s +:+ t = String c (s +:+ t).
Proof. reflexivity. Qed.

Lemma append_empty t : EmptyString +:+ t = t.
Proof. reflexivity. Qed.

Lemma match_at_u8 s : is_Some (Re.match_at u8 s) ↔ starts_utf8 s = true.
Proof.
  unfold Re.match_at, u8, Re.lit_i, starts_utf8.
  change (Re.lower "U") with "u"%char. change (Re.lower "T") with "t"%char.
  change (Re.lower "F") with "f"%char. change (Re.lower "-") with "-"%char.
  change (Re.lower "8") with "8"%char.
  destruct s as [|a [|b [|c [|d [|e r]]]]]; cbn;
    repeat (case_bool_decide; cbn);
    (split; intros Hm; try reflexivity; try discriminate Hm;
     try (by apply is_Some_None in Hm); try (by eexists)).
Qed.

Lemma starts_utf8_iff s :
  starts_utf8 s = true ↔
  ∃ mid post, s = mid +:+ post ∧
    (lower_str mid = "utf8" ∨ lower_str mid = "utf-8").
Proof.
  split.
  - destruct s as [|a [|b [|c [|d r]]]]; try discriminate.
    cbn [starts_utf8]. rewrite !andb_true_iff, orb_true_iff, andb_true_iff.
    rewrite !bool_decide_eq_true.
    intros [[[Ha Hb] Hc] [Hd|[Hd He]]].
    + exists (String a (String b (String c (String d EmptyString)))), r.
      split; [reflexivity|left]. cbn [lower_str]. by rewrite Ha, Hb, Hc, Hd.
    + destruct r as [|e r]; [discriminate|].
      apply bool_decide_eq_true in He.
      exists (String a (String b (String c (String d (String e EmptyString))))), r.
      split; [reflexivity|right]. cbn [lower_str]. by rewrite Ha, Hb, Hc, Hd, He.
  - intros (mid & post & -> & [Hm|Hm]).
    + destruct mid as [|a [|b [|c [|d [|? ?]]]]]; try discriminate Hm.
      cbn [lower_str] in Hm. injection Hm as Ha Hb Hc Hd.
      rewrite !append_String. cbn [starts_utf8]. by rewrite Ha, Hb, Hc, Hd.
    + destruct mid as [|a [|b [|c [|d [|e [|? ?]]]]]]; try discriminate Hm.
      cbn [lower_str] in Hm. injection Hm as Ha Hb Hc Hd He.
      rewrite !append_String. cbn [starts_utf8]. by rewrite Ha, Hb, Hc, Hd, He.
Qed.

(** [re.search] finds a match exactly when some suffix starts with one. *)
Lemma search_iff r s :
  Re.search r s = true ↔
  ∃ pre post, s = pre +:+ post ∧ is_Some (Re.match_at r post).
Proof.
  induction s as [|c s IH]; cbn [Re.search].
  - destruct (Re.match_at r EmptyString) eqn:Hm.
    + split; [|done]. intros _. exists EmptyString, EmptyString.
      by rewrite Hm.
    + split; [done|]. intros (pre & post & Hs & Hp).
      destruct pre; [|discriminate]. rewrite append_empty in Hs. subst post.
      rewrite Hm in Hp. by destruct Hp.
  - destruct (Re.match_at r (String c s)) eqn:Hm.
    + split; [|done]. intros _. exists EmptyString, (String c s).
      by rewrite Hm.
    + rewrite IH. split.
      * intros (pre & post & -> & Hp). by exists (String c pre), post.
      * intros (pre & post & Hs & Hp). destruct pre as [|c' pre].
        -- rewrite append_empty in Hs. subst post. rewrite Hm in Hp.
           by destruct Hp.
        -- rewrite append_String in Hs. injection Hs as -> ->.
           by exists pre, post.
Qed.

Lemma search_u8 s : Re.search u8 s = true ↔ names_utf8 s.
Proof.
  rewrite search_iff. unfold names_utf8. split.
  - intros (pre & post & -> & Hp).
    apply match_at_u8, starts_utf8_iff in Hp as (mid & post' & -> & Hm).
    by exists pre, mid, post'.
  - intros (pre & mid & post & -> & Hm). exists pre, (mid +:+ post).
    split; [reflexivity|]. apply match_at_u8, starts_utf8_iff. by exists mid, post.
Qed.

(** ** The heap operations permute the list *)

Section heapq_facts.

Context {A : Type} (less : A → A → bool).

(** Moving the hole from [i] to [j] and filling it there is a swap. *)
Lemma hole_moves (heap : list A) (i j : nat) (x y : A) :
  i < length heap → i ≠ j → heap !! j = Some y →
  <[j := x]> (<[i := y]> heap) ≡ₚ <[i := x]> heap.
Proof.
  intros Hi Hij Hj.
  rewrite <- (list_insert_insert_eq heap i y x).
  apply Permutation_insert_swap.
  - by apply list_lookup_insert_eq.
  - by rewrite list_lookup_insert_ne.
Qed.

Lemma siftdown_loop_perm (heap : list A) (startpos pos : nat) (x : A) :
  pos < length heap →
  Heapq.siftdown_loop less heap startpos pos x ≡ₚ <[pos := x]> heap.
Proof.
  funelim (Heapq.siftdown_loop less heap startpos pos x);
    intros Hpos; try reflexivity.
  match goal with
  | IH : _ → Heapq.siftdown_loop _ _ _ _ _ ≡ₚ _ |- _ => rewrite IH
  end.
  - apply hole_moves; [done| |done].
    pose proof (Nat.le_div2_diag_l (pos - 1)). lia.
  - rewrite length_insert.
    pose proof (Nat.le_div2_diag_l (pos - 1)). lia.
Qed.

Lemma siftdown_perm (heap : list A) (startpos pos : nat) :
  Heapq.siftdown less heap startpos pos ≡ₚ heap.
Proof.
  unfold Heapq.siftdown. destruct (heap !! pos) as [x|] eqn:Hx; [|done].
  rewrite siftdown_loop_perm by (by eapply lookup_lt_Some).
  by rewrite list_insert_id.
Qed.

Lemma siftup_loop_perm (heap : list A) (endpos pos : nat) (x : A) :
  pos < length heap →
  let r := Heapq.siftup_loop less heap endpos pos in
  <[r.2 := x]> r.1 ≡ₚ <[pos := x]> heap.
Proof.
  funelim (Heapq.siftup_loop less heap endpos pos);
    intros Hpos; try reflexivity.
  cbn zeta in *.
  match goal with
  | IH : ∀ _, _ → _ ≡ₚ _ |- _ => rewrite IH
  end.
  - apply hole_moves; [done| |done].
    destruct (Heapq.right_child_first _ _ _ _); lia.
  - rewrite length_insert. by eapply lookup_lt_Some.
Qed.

Lemma siftup_perm (heap : list A) (pos : nat) :
  Heapq.siftup less heap pos ≡ₚ heap.
Proof.
  unfold Heapq.siftup. destruct (heap !! pos) as [x|] eqn:Hx; [|done].
  pose proof (siftup_loop_perm heap (length heap) pos x
                (lookup_lt_Some _ _ _ Hx)) as Hp.
  destruct (Heapq.siftup_loop less heap (length heap) pos) as [heap' pos'].
  rewrite siftdown_perm. cbn in Hp. rewrite Hp. by rewrite list_insert_id.
Qed.

Lemma heappush_perm (heap : list A) (item : A) :
  Heapq.heappush less heap item ≡ₚ item :: heap.
Proof.
  unfold Heapq.heappush. rewrite siftdown_perm.
  symmetry. apply Permutation_cons_append.
Qed.

Lemma heapify_perm (x : list A) : Heapq.heapify less x ≡ₚ x.
Proof.
  unfold Heapq.heapify. generalize (reverse (seq 0 (length x / 2))).
  intros idx. revert x. induction idx as [|i idx IH]; intros x; [done|].
  cbn [foldl]. rewrite IH. apply siftup_perm.
Qed.

End heapq_facts.

(** ** The pool of pipelines *)

Section servlet_facts.

Context `{External}.

Lemma shouldStartPipe_iff h l1 l2 :
  shouldStartPipe h l1 l2 = true ↔ start_rule h (l1, l2).
Proof.
  unfold shouldStartPipe, start_rule.
  destruct (default [] (pipelines h !! (l1, l2))) as [|min_p rest].
  - split; [by left|done].
  - rewrite andb_true_iff, !bool_decide_eq_true. split.
    + intros [Hlen Husers]. right. split; [|done]. by exists min_p.
    + intros [|[(p & [= <-] & Husers) Hlen]]; done.
Qed.

(** What [getPipeline] leaves in the dictionary of pools. *)
Lemma getPipeline_pipelines h lp spawn_ok :
  pipelines (getPipeline lp spawn_ok h).2 =
  if shouldStartPipe h lp.1 lp.2 then
    if bool_decide (pair_name lp ∈ pairs (config h)) && spawn_ok
    then <[lp := Heapq.heappush Pipeline_lt (pool h lp)
                   (makePipeline (next_pid h))]> (pipelines h)
    else if decide (pipelines h !! lp = None)
         then <[lp := []]> (pipelines h)
         else pipelines h
  else pipelines h.
Proof.
  unfold getPipeline, pool.
  destruct (shouldStartPipe h lp.1 lp.2);
    [|unfold first_pipe; by repeat case_match].
  unfold bind, modify, start_pipeline, first_pipe.
  destruct (decide (pipelines h !! lp = None)) as [Hnone|Hsome];
    cbn [config pipelines with_pipelines emit with_next_pid next_pid];
    destruct (bool_decide (pair_name lp ∈ pairs (config h))); cbn [negb andb];
    try reflexivity;
    destruct spawn_ok; cbn [negb]; try reflexivity;
    cbn [config pipelines with_pipelines emit with_next_pid next_pid];
    rewrite ?lookup_insert_eq, ?Hnone, ?insert_insert_eq;
    by destruct (Heapq.heappush _ _ _).
Qed.

Lemma getPipeline_config h lp spawn_ok :
  config (getPipeline lp spawn_ok h).2 = config h.
Proof.
  unfold getPipeline, bind, modify, start_pipeline, first_pipe.
  by repeat (case_match; simplify_eq/=).
Qed.

(** The pool of [lp] after a call that starts a pipeline. *)
Lemma getPipeline_starts h lp :
  shouldStartPipe h lp.1 lp.2 = true →
  pair_name lp ∈ pairs (config h) →
  let r := getPipeline lp true h in
  let pool' := Heapq.heappush Pipeline_lt (pool h lp) (makePipeline (next_pid h)) in
  pool r.2 lp = pool' ∧ r.1 = from_option Ok (Raise IndexError) (head pool')
  ∧ next_pid r.2 = S (next_pid h).
Proof.
  intros Hstart Hin. unfold getPipeline, pool. rewrite Hstart.
  unfold bind, modify, start_pipeline, first_pipe.
  destruct (decide (pipelines h !! lp = None)) as [Hnone|Hsome];
    cbn [config pipelines with_pipelines emit with_next_pid next_pid];
    rewrite bool_decide_eq_true_2 by done; cbn [negb];
    cbn [config pipelines with_pipelines emit with_next_pid next_pid];
    rewrite !lookup_insert_eq, ?Hnone; cbn [default from_option id];
    destruct (Heapq.heappush _ _ _);
    cbn [fst snd pipelines with_pipelines next_pid emit with_next_pid];
    by rewrite lookup_insert_eq.
Qed.

(** A call that starts no pipeline hands out the front of the pool
    and changes nothing. *)
Lemma getPipeline_reuses h lp spawn_ok :
  shouldStartPipe h lp.1 lp.2 = false →
  ∃ p, head (pool h lp) = Some p ∧ getPipeline lp spawn_ok h = (Ok p, h).
Proof.
  intros Hstart. unfold getPipeline. rewrite Hstart.
  unfold shouldStartPipe in Hstart. unfold pool, first_pipe.
  destruct lp as [l1 l2]. cbn [fst snd] in Hstart.
  destruct (pipelines h !! (l1, l2)) as [[|p rest]|]; try discriminate.
  by exists p.
Qed.

Lemma perm_cons_head {A} (l l' : list A) (x : A) :
  l ≡ₚ x :: l' → ∃ y, head l = Some y.
Proof.
  destruct l as [|y l]; [|by exists y].
  intros Hp. by apply Permutation_nil_cons in Hp.
Qed.

(** C1, as amended: [shouldStartPipe] returns true exactly when the
    pool of the pair is empty or absent, or when the pipe at the front
    of the pool has MORE than [max_users_per_pipe] users and the pool has
    fewer than [max_pipes_per_pair] pipes.  When it returns true and the
    pair's mode can be started, [getPipeline] makes a new pipeline, puts
    it into the pool next to the pipes already there and hands out the
    front of the pool; when it returns false, [getPipeline] hands out
    the front of the pool and changes nothing. *)
Theorem shouldStartPipe_rule h l1 l2 spawn_ok :
  (shouldStartPipe h l1 l2 = true ↔ start_rule h (l1, l2)) ∧
  let r := getPipeline (l1, l2) spawn_ok h in
  if shouldStartPipe h l1 l2 then
    if bool_decide (pair_name (l1, l2) ∈ pairs (config h)) && spawn_ok then
      pool r.2 (l1, l2) ≡ₚ makePipeline (next_pid h) :: pool h (l1, l2)
      ∧ (∃ p, r.1 = Ok p ∧ head (pool r.2 (l1, l2)) = Some p)
      ∧ next_pid r.2 = S (next_pid h)
    else pool r.2 (l1, l2) = pool h (l1, l2)
  else
    ∃ p, head (pool h (l1, l2)) = Some p ∧ r = (Ok p, h).
Proof.
  split; [apply shouldStartPipe_iff|]. cbn zeta.
  destruct (shouldStartPipe h l1 l2) eqn:Hstart.
  - destruct (bool_decide _) eqn:Hin; cbn [andb];
      [destruct spawn_ok|].
    + apply bool_decide_eq_true in Hin.
      destruct (getPipeline_starts h (l1, l2) Hstart Hin) as (Hpool & Hres & Hpid).
      cbn zeta in *. rewrite Hpool, Hres, Hpid.
      pose proof (heappush_perm Pipeline_lt (pool h (l1, l2))
                    (makePipeline (next_pid h))) as Hperm.
      split; [done|]. split; [|done].
      destruct (perm_cons_head _ _ _ Hperm) as [p Hp].
      exists p. by rewrite Hp.
    + unfold pool at 1. rewrite getPipeline_pipelines.
      cbn [fst snd]. rewrite Hstart, Hin. cbn [andb].
      unfold pool. destruct (decide _) as [Hnone|]; [|done].
      by rewrite lookup_insert_eq, Hnone.
    + unfold pool at 1. rewrite getPipeline_pipelines.
      cbn [fst snd]. rewrite Hstart, Hin. cbn [andb].
      unfold pool. destruct (decide _) as [Hnone|]; [|done].
      by rewrite lookup_insert_eq, Hnone.
  - by apply getPipeline_reuses.
Qed.

(** ** The janitor *)

Lemma cleanable_iff c now i p :
  cleanable c now i p = true ↔ evict_rule c now i p.
Proof.
  unfold cleanable, evict_rule. case_bool_decide as Hrestart.
  - split; [by left|done].
  - destruct (_ && _ && _) eqn:Hidle.
    + split; [|done]. intros _. right.
      apply andb_true_iff in Hidle as [[H1 H2]%andb_true_iff H3].
      by rewrite !bool_decide_eq_true in *.
    + split; [done|]. intros [|(H1 & H2 & H3)]; [done|].
      rewrite !andb_false_iff, !bool_decide_eq_false in Hidle. tauto.
Qed.

Lemma elem_of_cleanable_from c now k pipes p :
  p ∈ cleanable_from c now k pipes ↔
  ∃ j, pipes !! j = Some p ∧ cleanable c (now (k + j)) (k + j) p = true.
Proof.
  revert k. induction pipes as [|q pipes IH]; intros k; cbn [cleanable_from].
  - split; [by intros ?%elem_of_nil|]. by intros (j & ? & _).
  - assert (p ∈ cleanable_from c now (S k) pipes ↔
            ∃ j, pipes !! j = Some p ∧
                 cleanable c (now (k + S j)) (k + S j) p = true) as IH'.
    { rewrite IH. by setoid_rewrite Nat.add_succ_r. }
    destruct (cleanable c (now k) k q) eqn:Hq.
    + rewrite elem_of_cons, IH'. split.
      * intros [->|(j & Hj & Hc)].
        -- exists 0. by rewrite Nat.add_0_r.
        -- by exists (S j).
      * intros ([|j] & Hj & Hc).
        -- left. by injection Hj.
        -- right. by exists j.
    + rewrite IH'. split.
      * intros (j & Hj & Hc). by exists (S j).
      * intros ([|j] & Hj & Hc).
        -- injection Hj as ->. rewrite Nat.add_0_r in Hc. congruence.
        -- by exists j.
Qed.

Lemma cleanable_from_sublist c now k pipes :
  cleanable_from c now k pipes `sublist_of` pipes.
Proof.
  revert k. induction pipes as [|q pipes IH]; intros k; cbn [cleanable_from].
  - constructor.
  - destruct (cleanable _ _ _ _); by constructor.
Qed.

Lemma set_of_pids l x : x ∈ pid <$> set_of l ↔ x ∈ pid <$> l.
Proof.
  induction l as [|p l IH]; [done|]. cbn [set_of].
  destruct (decide _) as [Hin|Hout].
  - rewrite IH, fmap_cons, elem_of_cons. split; [by right|].
    by intros [->|].
  - by rewrite !fmap_cons, !elem_of_cons, IH.
Qed.

Lemma set_of_distinct l : NoDup (pid <$> l) → set_of l = l.
Proof.
  induction l as [|p l IH]; [done|]. rewrite fmap_cons, NoDup_cons.
  intros [Hout Hl]. cbn [set_of]. rewrite decide_False by done.
  by rewrite IH.
Qed.

Lemma distinct_index (pipes : list Pipeline) i j p q :
  NoDup (pid <$> pipes) → pipes !! i = Some p → pipes !! j = Some q →
  pid q = pid p → i = j.
Proof.
  intros Hnd Hi Hj Hpid. eapply NoDup_lookup; [exact Hnd| |].
  - by rewrite list_lookup_fmap, Hi.
  - by rewrite list_lookup_fmap, Hj, <- Hpid.
Qed.

(** In a pool of distinct pipelines, the pipe at index [i] is in
    [to_clean] exactly when [cleanable] accepts it at that index. *)
Lemma to_clean_at c now pipes i p :
  NoDup (pid <$> pipes) → pipes !! i = Some p →
  (pid p ∈ pid <$> to_clean c now pipes ↔ cleanable c (now i) i p = true)
  ∧ (p ∈ to_clean c now pipes ↔ cleanable c (now i) i p = true).
Proof.
  intros Hnd Hi. unfold to_clean. split.
  - rewrite set_of_pids, list_elem_of_fmap. split.
    + intros (q & Hpid & (j & Hj & Hc)%elem_of_cleanable_from).
      cbn in Hc.
      pose proof (distinct_index pipes i j p q Hnd Hi Hj (eq_sym Hpid)) as ->.
      rewrite Hi in Hj. by injection Hj as <-.
    + intros Hc. exists p. split; [done|].
      apply elem_of_cleanable_from. by exists i.
  - rewrite set_of_distinct.
    + rewrite elem_of_cleanable_from. split.
      * intros (j & Hj & Hc). cbn in Hc.
        by rewrite (distinct_index pipes i j p p Hnd Hi Hj eq_refl).
      * intros Hc. by exists i.
    + eapply sublist_NoDup; [exact Hnd|].
      apply fmap_sublist, cleanable_from_sublist.
Qed.

Lemma elem_of_clean_pool c now pipes p :
  p ∈ clean_pool c now pipes ↔
  p ∈ pipes ∧ pid p ∉ pid <$> to_clean c now pipes.
Proof.
  unfold clean_pool. rewrite heapify_perm, list_elem_of_filter. tauto.
Qed.

Lemma pool_clean_pools now h lp :
  pool (clean_pools now h) lp = clean_pool (config h) (now lp) (pool h lp).
Proof.
  unfold pool, clean_pools. cbn [pipelines with_holding with_pipelines].
  rewrite map_lookup_imap. by destruct (pipelines h !! lp).
Qed.

Lemma pool_cleanPairs now h lp :
  pool (cleanPairs now h) lp = clean_pool (config h) (now lp) (pool h lp).
Proof. apply pool_clean_pools. Qed.

(** What [clean_pools] puts into the holding area. *)
Lemma elem_of_holding_clean_pools now h p :
  p ∈ pipelines_holding (clean_pools now h) ↔
  p ∈ pipelines_holding h ∨
  ∃ lp pipes, pipelines h !! lp = Some pipes
              ∧ p ∈ to_clean (config h) (now lp) pipes.
Proof.
  unfold clean_pools. cbn [pipelines_holding with_holding with_pipelines].
  rewrite elem_of_app, list_elem_of_bind. split.
  - intros [|([lp pipes] & Hp & Hkv%elem_of_map_to_list)]; [by left|].
    right. by exists lp, pipes.
  - intros [|(lp & pipes & Hkv & Hp)]; [by left|].
    right. exists (lp, pipes). by rewrite elem_of_map_to_list.
Qed.

Lemma elem_of_holding_cleanPairs now h p :
  p ∈ pipelines_holding (cleanPairs now h) ↔
  (0 < users p)%Z ∧ p ∈ pipelines_holding (clean_pools now h).
Proof.
  unfold cleanPairs, drain_holding. cbn [pipelines_holding with_holding].
  by rewrite list_elem_of_filter.
Qed.

(** C4, as amended: [cleanPairs] takes the pipe at index [i] of a pool
    out of that pool exactly when its [useCount] is above
    [restart_pipe_after] (whatever the index), or when
    [i >= min_pipes_per_pair], [max_idle_secs] is NOT 0 and
    [now - lastUsage > max_idle_secs]; no other pipe leaves the pool.
    The evicted pipe is appended to the holding area, and it is still
    there at the end of the call exactly when it has users. *)
Theorem cleanPairs_evicts h now lp pipes i p :
  pipelines h !! lp = Some pipes →
  NoDup (pid <$> pipes) →
  pipes !! i = Some p →
  (p ∉ pool (cleanPairs now h) lp ↔ evict_rule (config h) (now lp i) i p)
  ∧ (evict_rule (config h) (now lp i) i p →
     p ∈ pipelines_holding (clean_pools now h)
     ∧ (p ∈ pipelines_holding (cleanPairs now h) ↔ (0 < users p)%Z)).
Proof.
  intros Hlp Hnd Hi.
  destruct (to_clean_at (config h) (now lp) pipes i p Hnd Hi) as [Hpid Hmem].
  rewrite <- cleanable_iff. split.
  - rewrite pool_cleanPairs, elem_of_clean_pool. unfold pool. rewrite Hlp.
    cbn [default from_option id]. rewrite Hpid.
    assert (p ∈ pipes) by (by eapply list_elem_of_lookup_2).
    destruct (cleanable _ _ _ _); split; intros Hx; try done.
    + intros [_ Hn]. by apply Hn.
    + by destruct Hx.
  - intros Hc.
    assert (p ∈ pipelines_holding (clean_pools now h)) as Hhold.
    { apply elem_of_holding_clean_pools. right. exists lp, pipes.
      by rewrite Hmem. }
    split; [done|]. rewrite elem_of_holding_cleanPairs. tauto.
Qed.

(** [cleanPairs] invents no pipe: what is in a pool afterwards was in
    it before, and what is in the holding area afterwards was there
    before or was one of the pipes [cleanable] accepted. *)
Lemma cleanPairs_moves_only h now :
  (∀ lp p, p ∈ pool (cleanPairs now h) lp → p ∈ pool h lp)
  ∧ (∀ p, p ∈ pipelines_holding (cleanPairs now h) →
          p ∈ pipelines_holding h ∨
          ∃ lp i, pool h lp !! i = Some p
                  ∧ evict_rule (config h) (now lp i) i p).
Proof.
  split.
  - intros lp p. rewrite pool_cleanPairs, elem_of_clean_pool. tauto.
  - intros p [_ Hp]%elem_of_holding_cleanPairs.
    apply elem_of_holding_clean_pools in Hp as [|(lp & pipes & Hlp & Hp)];
      [by left|right].
    unfold to_clean in Hp. exists lp. unfold pool. rewrite Hlp. cbn [default from_option id].
    assert (p ∈ cleanable_from (config h) (now lp) 0 pipes) as Hin.
    { clear -Hp. induction (cleanable_from _ _ _ _) as [|q l IH];
        [by apply elem_of_nil in Hp|].
      cbn [set_of] in Hp. destruct (decide _); [right; by apply IH|].
      apply elem_of_cons in Hp as [->|]; [left|right; by apply IH]. }
    apply elem_of_cleanable_from in Hin as (j & Hj & Hc).
    exists j. split; [done|]. by apply cleanable_iff.
Qed.

(** C5: after [cleanPairs] every pipeline left in the holding area has
    [users > 0]; in particular a held pipeline whose users are down to
    zero is gone. *)
Theorem cleanPairs_holding_in_use h now :
  Forall (λ p, (0 < users p)%Z) (pipelines_holding (cleanPairs now h))
  ∧ (∀ p, users p = 0%Z → p ∉ pipelines_holding (cleanPairs now h)).
Proof.
  split.
  - apply Forall_forall. by intros p [? _]%elem_of_holding_cleanPairs.
  - intros p Hzero [Hpos _]%elem_of_holding_cleanPairs. lia.
Qed.

(** ** The size of the pools *)

Lemma clean_pool_length c now pipes :
  length (clean_pool c now pipes) ≤ length pipes.
Proof.
  unfold clean_pool. rewrite (Permutation_length (heapify_perm _ _)).
  apply length_filter.
Qed.

Lemma pool_touch f h lp :
  pool (touch f h) lp
  = (λ p, mkPipeline (pid p) (f p).1.1 (f p).1.2 (f p).2) <$> pool h lp.
Proof.
  unfold pool, touch, map_pipes. cbn [pipelines with_holding with_pipelines].
  rewrite lookup_fmap. by destruct (pipelines h !! lp).
Qed.

Lemma pool_getPipeline h lp spawn_ok lp' :
  pool (getPipeline lp spawn_ok h).2 lp' =
  if shouldStartPipe h lp.1 lp.2
     && bool_decide (pair_name lp ∈ pairs (config h)) && spawn_ok
     && bool_decide (lp' = lp)
  then Heapq.heappush Pipeline_lt (pool h lp) (makePipeline (next_pid h))
  else pool h lp'.
Proof.
  unfold pool at 1. rewrite getPipeline_pipelines.
  destruct (shouldStartPipe h lp.1 lp.2); cbn [andb]; [|done].
  destruct (bool_decide (pair_name lp ∈ _)); cbn [andb].
  - destruct spawn_ok; cbn [andb].
    + case_bool_decide as Heq.
      * subst lp'. by rewrite lookup_insert_eq.
      * by rewrite lookup_insert_ne.
    + destruct (decide _) as [Hnone|]; [|done].
      destruct (decide (lp = lp')) as [<-|].
      * unfold pool. by rewrite lookup_insert_eq, Hnone.
      * by rewrite lookup_insert_ne.
  - destruct (decide _) as [Hnone|]; [|done].
    destruct (decide (lp = lp')) as [<-|].
    * unfold pool. by rewrite lookup_insert_eq, Hnone.
    * by rewrite lookup_insert_ne.
Qed.

Lemma step_config op h : config (step op h) = config h.
Proof. destruct op; cbn [step]; [apply getPipeline_config|done..]. Qed.

Lemma run_config ops h : config (run ops h) = config h.
Proof.
  revert h. induction ops as [|op ops IH]; intros h; [done|].
  cbn [run foldl]. fold (run ops (step op h)). by rewrite IH, step_config.
Qed.

Lemma step_pool_bounded op h : pool_bounded h → pool_bounded (step op h).
Proof.
  intros Hb lp'. rewrite step_config. specialize (Hb lp') as Hlp'.
  destruct op as [lp spawn_ok|now|f]; cbn [step].
  - rewrite pool_getPipeline.
    destruct (shouldStartPipe h lp.1 lp.2) eqn:Hstart; cbn [andb]; [|done].
    destruct (_ && _ && _); [|done].
    rewrite (Permutation_length (heappush_perm _ _ _)). cbn [length].
    unfold shouldStartPipe in Hstart. fold (pool h (lp.1, lp.2)) in Hstart.
    destruct lp as [l1 l2]. cbn [fst snd] in Hstart.
    destruct (pool h (l1, l2)) as [|min_p rest]; cbn [length]; [lia|].
    apply andb_true_iff in Hstart as [Hlen%bool_decide_eq_true _].
    cbn [length] in Hlen. lia.
  - rewrite pool_cleanPairs.
    pose proof (clean_pool_length (config h) (now lp') (pool h lp')). lia.
  - rewrite pool_touch, length_fmap. done.
Qed.

Lemma run_pool_bounded ops h : pool_bounded h → pool_bounded (run ops h).
Proof.
  revert h. induction ops as [|op ops IH]; intros h Hb; [done|].
  cbn [run foldl]. fold (run ops (step op h)). by apply IH, step_pool_bounded.
Qed.

(** C6, as amended: whatever [getPipeline], [cleanPairs] and the
    translations in flight do, in whatever order, the pool of a pair
    never has more than [max_pipes_per_pair] pipes, or more than one
    when [max_pipes_per_pair] is below 1. *)
Theorem pool_never_exceeds_max c db ops lp :
  (Z.of_nat (length (pool (run ops (fresh_handler c db)) lp))
   ≤ Z.max 1 (max_pipes_per_pair c))%Z.
Proof.
  pose proof (run_pool_bounded ops (fresh_handler c db)) as Hrun.
  unfold pool_bounded in Hrun at 2. rewrite run_config in Hrun.
  apply Hrun. intros lp'. unfold pool, fresh_handler.
  cbn [pipelines config]. rewrite lookup_empty. cbn. lia.
Qed.

(** ** The pipelines of a pool are distinct objects *)

Lemma getPipeline_next_pid h lp spawn_ok :
  next_pid (getPipeline lp spawn_ok h).2 =
  if shouldStartPipe h lp.1 lp.2
     && bool_decide (pair_name lp ∈ pairs (config h)) && spawn_ok
  then S (next_pid h) else next_pid h.
Proof.
  unfold getPipeline, bind, modify, start_pipeline, first_pipe.
  destruct (shouldStartPipe h lp.1 lp.2); cbn [andb];
    [|by repeat case_match].
  destruct (decide (pipelines h !! lp = None));
    cbn [config pipelines with_pipelines emit with_next_pid next_pid];
    destruct (bool_decide (pair_name lp ∈ _)); cbn [negb andb]; try done;
    destruct spawn_ok; cbn [negb]; try done;
    cbn [config pipelines with_pipelines emit with_next_pid next_pid];
    by repeat case_match.
Qed.

Lemma step_pids_distinct op h : pids_distinct h → pids_distinct (step op h).
Proof.
  intros Hd lp'. destruct (Hd lp') as [Hnd Hlt].
  destruct op as [lp spawn_ok|now|f]; cbn [step].
  - rewrite pool_getPipeline, getPipeline_next_pid.
    destruct (_ && _ && spawn_ok); cbn [andb].
    + case_bool_decide as Heq.
      * subst lp'.
        pose proof (heappush_perm Pipeline_lt (pool h lp)
                      (makePipeline (next_pid h))) as Hperm.
        rewrite Hperm. rewrite fmap_cons, NoDup_cons, Forall_cons.
        cbn [pid makePipeline]. repeat split; [|done|lia|].
        -- intros (q & Hq & Hin)%list_elem_of_fmap.
           rewrite Forall_forall in Hlt. specialize (Hlt q Hin). lia.
        -- eapply Forall_impl; [exact Hlt|]. cbn. lia.
      * split; [done|]. eapply Forall_impl; [exact Hlt|]. cbn. lia.
    + done.
  - rewrite pool_cleanPairs. unfold cleanPairs, drain_holding, clean_pools.
    cbn [next_pid with_holding with_pipelines]. unfold clean_pool.
    rewrite heapify_perm. split.
    + eapply sublist_NoDup; [exact Hnd|]. apply fmap_sublist, sublist_filter.
    + apply Forall_forall. intros q [_ Hq]%list_elem_of_filter.
      rewrite Forall_forall in Hlt. by apply Hlt.
  - rewrite pool_touch. unfold touch, map_pipes.
    cbn [next_pid with_holding with_pipelines].
    rewrite <- list_fmap_compose. split; [done|].
    by apply Forall_fmap.
Qed.

(** Every state reached from the start has distinct pipelines in each
    pool: the premise on the pool that the eviction rule is stated
    under holds in every run. *)
Lemma run_pids_distinct ops c db :
  pids_distinct (run ops (fresh_handler c db)).
Proof.
  assert (∀ h, pids_distinct h → pids_distinct (run ops h)) as Hrun.
  { induction ops as [|op ops IH]; intros h Hd; [done|].
    cbn [run foldl]. fold (run ops (step op h)).
    by apply IH, step_pids_distinct. }
  apply Hrun. intros lp. unfold pool, fresh_handler. cbn [pipelines].
  rewrite lookup_empty. cbn. split; constructor.
Qed.

(** ** The marks in the answer *)

Lemma with_missing_same h : with_missing (missingFreqsDb h) h = h.
Proof. by destruct h. Qed.

(** C3: with [markUnknown] not among [yes], [true], [1],
    [maybeStripMarks] returns the text in which every [*] that begins a
    token (a [*] followed by a character other than [. , ; :], tab, [*]
    and space) is removed and nothing else is changed; with
    [markUnknown] among them it returns the text as it is.  In both
    cases, a configured store receives one [noteUnknown(token, 'l1-l2')]
    per marked token, in order, and nothing else of the state changes;
    without a store the state is left alone. *)
Theorem maybeStripMarks_spec h markUnknown lp translated :
  let r := maybeStripMarks (wants_marks markUnknown) lp translated h in
  r.1 = (if decide (markUnknown ∈ ["yes"; "true"; "1"])
         then translated else strip_marks translated)
  ∧ r.2 = with_missing
            ((λ db, db ++ ((λ token, (token, pair_name lp))
                             <$> marked_tokens translated))
               <$> missingFreqsDb h) h.
Proof.
  cbn zeta. unfold maybeStripMarks, noteUnknownTokens, wants_marks, Re.sub, Re.findall.
  rewrite sub_from_unknownMarkRE, findall_from_unknownMarkRE.
  cbn [skip_chars]. split.
  - unfold bool_decide. by destruct (decide_rel _ _ _).
  - destruct (bool_decide _); cbn [snd];
      (destruct (missingFreqsDb h) eqn:Hdb; cbn [fmap option_fmap option_map];
       [done|by rewrite <- Hdb, with_missing_same]).
Qed.

(** ** The timing statistics *)

(** What a call answering 200 does to the samples: the oldest one is
    dropped if it is too old, no other is looked at, and the new
    sample is appended. *)
Lemma logAfterTranslation_on_200 h before len clk max_age sample rest :
  status h = 200%Z →
  STAT_PERIOD_MAX_AGE (config h) = Some max_age →
  stats_timing h = sample :: rest →
  logAfterTranslation before len clk h =
  (Ok tt,
   with_timing
     ((if bool_decide (max_age < clk_check clk - sample.1.1)%Z
       then rest else sample :: rest) ++ [(before, clk_after clk, len)]) h).
Proof.
  intros Hst Hage Htiming. unfold logAfterTranslation.
  rewrite bool_decide_eq_true_2 by done. rewrite Hage, Htiming.
  by case_bool_decide.
Qed.

Lemma getPairOrError_cases h langpair n before clk :
  getPairOrError langpair n before clk h =
  match toAlpha3Code <$> split "|" langpair with
  | [l1; l2] =>
      if bool_decide (pair_name (l1, l2) ∈ pairs (config h))
      then (Ok (Some (l1, l2)), h)
      else (Ok None, send_error 400 h)
  | _ => (Ok None, send_error 400 h)
  end.
Proof.
  unfold getPairOrError.
  by destruct (toAlpha3Code <$> split "|" langpair) as [|l1 [|l2 [|l3 rest]]].
Qed.

(** C10: with a status other than 200, [logAfterTranslation] returns
    without touching anything, the samples in particular; and whatever
    [getPairOrError] answers (a pair, or an error for an invalid or
    uninstalled pair), it appends no sample. *)
Theorem logAfterTranslation_only_on_200 h before len clk :
  status h ≠ 200%Z →
  logAfterTranslation before len clk h = (Ok tt, h)
  ∧ ∀ h0 langpair,
      stats_timing (getPairOrError langpair len before clk h0).2
      = stats_timing h0.
Proof.
  intros Hst. split.
  - unfold logAfterTranslation. by rewrite bool_decide_eq_false_2.
  - intros h0 langpair. rewrite getPairOrError_cases.
    by repeat case_match.
Qed.

(** ** Refused pairs *)

Lemma refused_iff c langpair :
  refused c langpair ↔
  match toAlpha3Code <$> split "|" langpair with
  | [l1; l2] => pair_name (l1, l2) ∉ pairs c
  | _ => True
  end.
Proof.
  unfold refused.
  destruct (split "|" langpair) as [|c1 [|c2 [|c3 rest]]]; cbn [fmap list_fmap].
  - split; [done|]. intros _. by left.
  - split; [done|]. intros _. by left.
  - split.
    + intros [Hno|(d1 & d2 & [= <- <-] & Hout)]; [|done].
      by destruct (Hno c1 c2).
    + intros Hout. right. by exists c1, c2.
  - split; [done|]. intros _. by left.
Qed.

(** C9: [getPairOrError] answers 400 and returns no pair exactly when
    [langpair] does not split at [|] into exactly two codes or the pair
    of the canonical codes is not installed.  The request then ends
    there: the pools and the holding area are as before, no pipeline was
    made or used, no translation was run, and the only output is the
    error.  Any other [langpair] yields its pair and changes nothing. *)
Theorem getPairOrError_refuses h req o langpair q :
  arg_langpair req = Some langpair →
  arg_q req = Some q →
  let r := getPairOrError langpair (Z.of_nat (String.length q))
             (o_reject_before o) (o_reject_clock o) h in
  ((r.1 = Ok None ∧ status r.2 = 400%Z) ↔ refused (config h) langpair)
  ∧ (refused (config h) langpair →
     get req o h = (Ok tt, send_error 400 h)
     ∧ pipelines (get req o h).2 = pipelines h
     ∧ pipelines_holding (get req o h).2 = pipelines_holding h
     ∧ trace (get req o h).2 = trace h ++ [EvSendError 400])
  ∧ (¬ refused (config h) langpair → ∃ l1 l2, r = (Ok (Some (l1, l2)), h)).
Proof.
  intros Hlp Hq. cbn zeta.
  assert (refused (config h) langpair →
          get req o h = (Ok tt, send_error 400 h)) as Hget.
  { intros Href. unfold get, bind, get_argument. rewrite Hlp, Hq.
    unfold ret at 1 2. rewrite getPairOrError_cases.
    apply refused_iff in Href.
    destruct (toAlpha3Code <$> split "|" langpair) as [|l1 [|l2 [|l3 rest]]];
      try reflexivity.
    by rewrite bool_decide_eq_false_2. }
  rewrite getPairOrError_cases, refused_iff.
  destruct (toAlpha3Code <$> split "|" langpair) as [|l1 [|l2 [|l3 rest]]]
    eqn:Hsplit; cbn [fst snd].
  1,2,4: (split; [done|]; split; [|done]; intros _;
          rewrite Hget by (apply refused_iff; by rewrite Hsplit); done).
  case_bool_decide as Hin; cbn [fst snd].
  - split; [split; [by intros [[=] _]|done]|]. split; [done|].
    intros _. by exists l1, l2.
  - split; [done|]. split; [|done]. intros _.
    rewrite Hget by (apply refused_iff; by rewrite Hsplit). done.
Qed.

(** ** The usage counter *)

Lemma getPipeline_useCount h lp spawn_ok :
  stats_useCount (getPipeline lp spawn_ok h).2 = stats_useCount h.
Proof.
  unfold getPipeline, bind, modify, start_pipeline, first_pipe.
  by repeat (case_match; simplify_eq/=).
Qed.

(** Once a request is in [translateAndRespond] the pair is counted,
    whatever happens next. *)
Lemma translateAndRespond_useCount h lp pipeline toTranslate markUnknown o :
  stats_useCount (translateAndRespond lp pipeline toTranslate markUnknown o h).2
  = <[lp := (1 + default 0 (stats_useCount h !! lp))%Z]> (stats_useCount h).
Proof.
  unfold translateAndRespond, bind, modify, translate, logAfterTranslation,
    maybeStripMarks, noteUnknownTokens.
  by repeat (case_match; simplify_eq/=).
Qed.

Lemma translateAndRespond_fails h lp pipeline toTranslate markUnknown o :
  o_translated o = None →
  (translateAndRespond lp pipeline toTranslate markUnknown o h).1
  = Raise PipelineError.
Proof.
  intros Hnone. unfold translateAndRespond, bind, modify, translate.
  by rewrite Hnone.
Qed.

(** C2, as amended: a [/translate] request whose pair is accepted and
    which gets its pipeline raises [useCount[pair]] by exactly 1 (from 0
    for a pair not counted before), and it does so before the text is
    sent to the pipeline: the count is raised all the same when the
    translate step then fails.  A request that is refused by
    [getPairOrError], or that fails while its pipeline is started,
    leaves [useCount] as it was. *)
Theorem useCount_counts_attempts h req o langpair q :
  arg_langpair req = Some langpair →
  arg_q req = Some q →
  let r := get req o h in
  match getPairOrError langpair (Z.of_nat (String.length q))
          (o_reject_before o) (o_reject_clock o) h with
  | (Ok (Some lp), h1) =>
      match getPipeline lp (o_spawn_ok o) h1 with
      | (Ok _, _) =>
          stats_useCount r.2
          = <[lp := (1 + default 0 (stats_useCount h !! lp))%Z]> (stats_useCount h)
          ∧ (o_translated o = None → r.1 = Raise PipelineError)
      | (Raise e, _) => r.1 = Raise e ∧ stats_useCount r.2 = stats_useCount h
      end
  | _ => stats_useCount r.2 = stats_useCount h
  end.
Proof.
  intros Hlp Hq. cbn zeta. unfold get, bind, get_argument.
  rewrite Hlp, Hq. unfold ret. cbv beta iota.
  rewrite !getPairOrError_cases.
  destruct (toAlpha3Code <$> split "|" langpair) as [|l1 [|l2 [|l3 rest]]];
    try reflexivity.
  case_bool_decide; [|reflexivity].
  pose proof (getPipeline_useCount h (l1, l2) (o_spawn_ok o)) as Hcount.
  destruct (getPipeline (l1, l2) (o_spawn_ok o) h) as [[pipeline|e] h2];
    cbn [snd] in Hcount; [|done].
  rewrite translateAndRespond_useCount, Hcount. split; [done|].
  apply translateAndRespond_fails.
Qed.

(** ** The startup check *)

(** C8: [sanity_check] ends the process with exit status 1 exactly
    when neither [LANG] nor [LC_ALL] (taken as empty when unset) has a
    substring [UTF8] or [UTF-8] in some mix of cases; otherwise it
    returns. *)
Theorem sanity_check_needs_utf8 (environ : gmap string string) :
  let value := λ key, default "" (environ !! key) in
  (sanity_check environ = Exits 1 ↔
     ¬ names_utf8 (value "LANG") ∧ ¬ names_utf8 (value "LC_ALL"))
  ∧ (sanity_check environ = Returns ↔
     names_utf8 (value "LANG") ∨ names_utf8 (value "LC_ALL")).
Proof.
  cbn zeta. unfold sanity_check. cbn [existsb]. rewrite orb_false_r.
  rewrite <- !search_u8.
  destruct (Re.search u8 (default "" (environ !! "LANG")));
    destruct (Re.search u8 (default "" (environ !! "LC_ALL")));
    cbn [orb negb]; intuition congruence.
Qed.

End servlet_facts.

(* ===================================================================== *)
(** * Part III: the theorems at work on sample data *)
(* ===================================================================== *)

(** The scenario of the specification: [*foo bar] with and without
    marks. *)
Example strip_marks_foo_bar :
  (maybeStripMarks (wants_marks "no") eng_spa "*foo bar"
     sample_handler).1 = "foo bar"
  ∧ (maybeStripMarks (wants_marks "yes") eng_spa "*foo bar"
       sample_handler).1 = "*foo bar"
  ∧ missingFreqsDb
      (maybeStripMarks (wants_marks "yes") eng_spa "*foo bar"
         sample_handler).2 = Some [("foo", "eng-spa")].
Proof. vm_compute. done. Qed.

(** A mark before a separator, a doubled mark and a mark inside a word. *)
Example strip_marks_corner_cases :
  Re.sub unknownMarkRE "*foo bar **baz, * x*y.*" = "foo bar *baz, * xy.*"
  ∧ Re.findall unknownMarkRE "*foo bar **baz, * x*y.*" = ["foo"; "baz"; "y"].
Proof. vm_compute. done. Qed.

Example sanity_check_samples :
  sanity_check {["LANG" := "en_US.utf8"]} = Returns
  ∧ sanity_check {["LANG" := "C"; "LC_ALL" := "nb_NO.UTF-8"]} = Returns
  ∧ sanity_check {["LANG" := "nb_NO.UTF_8"]} = Exits 1
  ∧ sanity_check ∅ = Exits 1.
Proof. vm_compute. done. Qed.

(** [heapq] on numbers, as Python computes it. *)
Example heapq_samples :
  Heapq.heapify Nat.ltb [5; 3; 8; 1; 9; 2; 7] = [1; 3; 2; 5; 9; 8; 7]
  ∧ Heapq.heappush Nat.ltb [1; 3; 2; 5; 9; 8; 7] 0 = [0; 1; 2; 3; 9; 8; 7; 5].
Proof. vm_compute. done. Qed.

(** C1, the claim as stated fails: a pool whose only pipe has exactly
    [max_users_per_pipe] users, with room for a second pipe, meets the
    rule of the specification, and [shouldStartPipe] says no. *)
Lemma shouldStartPipe_at_limit :
  ¬ (shouldStartPipe full_handler "eng" "spa" = true
     ↔ start_rule_of_spec full_handler eng_spa).
Proof.
  intros [_ Hrule].
  assert (shouldStartPipe full_handler "eng" "spa" = false) as Hno
    by (vm_compute; reflexivity).
  rewrite Hrule in Hno; [discriminate|].
  right. split; [|vm_compute; reflexivity].
  exists full_pipe. split; [|split].
  - vm_compute. by left.
  - vm_compute. repeat constructor. discriminate.
  - vm_compute. discriminate.
Qed.

(** C2, the claim as stated fails: the translate step raises, the
    request fails, and the pair has been counted. *)
Lemma useCount_counted_on_failure :
  let r := get (H := sample_external) (sample_request "en|es" None)
             (sample_oracle None) sample_handler in
  r.1 = Raise PipelineError
  ∧ stats_useCount sample_handler !! eng_spa = None
  ∧ stats_useCount r.2 !! eng_spa = Some 1%Z.
Proof. vm_compute. done. Qed.

Lemma useCount_counts_attempts_witness :
  arg_langpair (sample_request "en|es" None) = Some "en|es"
  ∧ arg_q (sample_request "en|es" None) = Some "hello world"
  ∧ stats_useCount
      (get (H := sample_external) (sample_request "en|es" None)
         (sample_oracle (Some "hola mundo")) sample_handler).2
    = <[eng_spa := (1 + default 0 (stats_useCount sample_handler !! eng_spa))%Z]>
        (stats_useCount sample_handler).
Proof.
  split; [reflexivity|]. split; [reflexivity|].
  exact (proj1 (useCount_counts_attempts (H := sample_external) sample_handler
                  (sample_request "en|es" None) (sample_oracle (Some "hola mundo"))
                  "en|es" "hello world" eq_refl eq_refl)).
Defined.

(** C4, the claim as stated fails: with [max_idle_secs = -1] a pipe
    used this very second is evicted, although [max_idle_secs > 0] does
    not hold. *)
Lemma cleanPairs_negative_idle :
  ¬ (just_used_pipe ∉ pool (cleanPairs (H := sample_external) (λ _ _, 100%Z)
                              negative_idle_handler) eng_spa
     ↔ evict_rule_of_spec (config negative_idle_handler) 100 0 just_used_pipe).
Proof.
  intros [Hrule _].
  assert (pool (cleanPairs (H := sample_external) (λ _ _, 100%Z)
                  negative_idle_handler) eng_spa = []) as Hpool
    by (vm_compute; reflexivity).
  rewrite Hpool in Hrule.
  destruct Hrule as [Hrestart|(_ & Hidle & _)]; [apply not_elem_of_nil| |].
  - vm_compute in Hrestart. discriminate.
  - vm_compute in Hidle. discriminate.
Qed.

Lemma cleanPairs_evicts_witness :
  pipelines worn_handler !! eng_spa = Some [worn_pipe; young_pipe]
  ∧ NoDup (pid <$> [worn_pipe; young_pipe])
  ∧ [worn_pipe; young_pipe] !! 0 = Some worn_pipe
  ∧ (worn_pipe ∉ pool (cleanPairs (H := sample_external) (λ _ _, 100%Z)
                         worn_handler) eng_spa)
  ∧ worn_pipe ∈ pipelines_holding
                  (cleanPairs (H := sample_external) (λ _ _, 100%Z) worn_handler).
Proof.
  assert (pipelines worn_handler !! eng_spa = Some [worn_pipe; young_pipe])
    as Hlp by (vm_compute; reflexivity).
  assert (NoDup (pid <$> [worn_pipe; young_pipe])) as Hnd.
  { cbn. repeat constructor; [|apply not_elem_of_nil].
    intros Hin%list_elem_of_singleton. discriminate. }
  assert (evict_rule (config worn_handler) 100 0 worn_pipe) as Hrule
    by (left; vm_compute; reflexivity).
  destruct (cleanPairs_evicts (H := sample_external) worn_handler (λ _ _, 100%Z)
              eng_spa [worn_pipe; young_pipe] 0 worn_pipe Hlp Hnd eq_refl)
    as [Hout Hhold].
  split; [exact Hlp|]. split; [exact Hnd|]. split; [reflexivity|].
  split; [by apply Hout|]. apply (Hhold Hrule). vm_compute. reflexivity.
Defined.

(** C6, the claim as stated fails: with [max_pipes_per_pair = 0] the
    first request for a pair still starts a pipe. *)
Lemma pool_exceeds_zero_max :
  let h := run (H := sample_external) [OpGetPipeline eng_spa true]
             (fresh_handler zero_max_config None) in
  ¬ (Z.of_nat (length (pool h eng_spa)) ≤ max_pipes_per_pair (config h))%Z.
Proof. vm_compute. intros Hle. by apply Hle. Qed.

(** C7, the code at a failing input: two samples of three hours ago;
    the call drops the first, keeps the second and appends the new one,
    so a sample far older than [STAT_PERIOD_MAX_AGE] stays. *)
Theorem logAfterTranslation_keeps_stale_sample :
  let r := logAfterTranslation 10799999000 11 late_clock stale_handler in
  r.1 = Ok tt
  ∧ stats_timing r.2 = [(1, 2, 5); (10799999000, 10800000000, 11)]%Z
  ∧ STAT_PERIOD_MAX_AGE (config r.2) = Some 3600000000%Z
  ∧ ¬ Forall (fresh_sample 3600000000 10800000000) (stats_timing r.2).
Proof.
  cbn zeta.
  rewrite (logAfterTranslation_on_200 stale_handler _ _ _ 3600000000%Z
             (0, 1, 5)%Z [(1, 2, 5)%Z]) by reflexivity.
  split; [reflexivity|]. split; [reflexivity|]. split; [reflexivity|].
  intros Hall. apply Forall_cons in Hall as [Hfresh _].
  unfold fresh_sample in Hfresh. cbn in Hfresh. lia.
Qed.

Lemma getPairOrError_refuses_witness :
  arg_langpair (sample_request "en|de" None) = Some "en|de"
  ∧ arg_q (sample_request "en|de" None) = Some "hello world"
  ∧ refused (H := sample_external) (config sample_handler) "en|de"
  ∧ get (H := sample_external) (sample_request "en|de" None)
      (sample_oracle (Some "hola mundo")) sample_handler
    = (Ok tt, send_error 400 sample_handler).
Proof.
  assert (refused (H := sample_external) (config sample_handler) "en|de") as Href.
  { right. exists "en", "de". split; [reflexivity|].
    apply (bool_decide_unpack _). vm_compute. exact I. }
  split; [reflexivity|]. split; [reflexivity|]. split; [exact Href|].
  apply (getPairOrError_refuses (H := sample_external) sample_handler
           (sample_request "en|de" None) (sample_oracle (Some "hola mundo"))
           "en|de" "hello world" eq_refl eq_refl).
  exact Href.
Defined.

Lemma logAfterTranslation_only_on_200_witness :
  status (send_error 400 sample_handler) ≠ 200%Z
  ∧ logAfterTranslation 10 11 sample_clock (send_error 400 sample_handler)
    = (Ok tt, send_error 400 sample_handler).
Proof.
  assert (status (send_error 400 sample_handler) ≠ 200%Z) as Hst
    by (cbn; discriminate).
  split; [exact Hst|].
  exact (proj1 (logAfterTranslation_only_on_200 (H := sample_external)
                  (send_error 400 sample_handler) 10 11 sample_clock Hst)).
Defined.

(* ===================================================================== *)
(** * Part IV: more of servlet.py *)
(* ===================================================================== *)

(** ** Splitting and joining *)

Lemma split_cons_inv sep s : ∃ w ws, split sep s = w :: ws.
Proof.
  destruct s as [|c s]; cbn [split]; [by eexists _, _|].
  destruct (decide (c = sep)); [by eexists _, _|].
  destruct (split sep s); by eexists _, _.
Qed.

Lemma split_length sep s : length (split sep s) = S (occurs sep s).
Proof.
  induction s as [|c s IH]; [done|]. cbn [split occurs].
  destruct (decide (c = sep)); cbn [length]; [by rewrite IH|].
  destruct (split_cons_inv sep s) as (w & ws & Hs). rewrite Hs in *.
  cbn [length] in *. lia.
Qed.

Lemma split_pieces_free sep s : Forall (λ w, occurs sep w = 0) (split sep s).
Proof.
  induction s as [|c s IH]; [by repeat constructor|]. cbn [split].
  destruct (decide (c = sep)); [by constructor|].
  destruct (split_cons_inv sep s) as (w & ws & Hs). rewrite Hs in *.
  apply Forall_cons in IH as [Hw Hws]. constructor; [|done].
  cbn [occurs]. by rewrite decide_False.
Qed.

(** Joining what was split gives the string back. *)
Lemma join_split sep s : join (String sep EmptyString) (split sep s) = s.
Proof.
  induction s as [|c s IH]; [done|]. cbn [split].
  destruct (split_cons_inv sep s) as (w & ws & Hs). rewrite Hs in *.
  destruct (decide (c = sep)) as [->|].
  - change (join ?a (EmptyString :: w :: ws))
      with (EmptyString +:+ a +:+ join a (w :: ws)).
    by rewrite IH.
  - destruct ws as [|w' ws]; [by rewrite <- IH|].
    change (join ?a (String c w :: w' :: ws))
      with (String c w +:+ a +:+ join a (w' :: ws)).
    change (join ?a (w :: w' :: ws))
      with (w +:+ a +:+ join a (w' :: ws)) in IH.
    by rewrite <- IH.
Qed.

Lemma split_free sep w : occurs sep w = 0 → split sep w = [w].
Proof.
  induction w as [|c w IH]; [done|]. cbn [occurs split].
  destruct (decide (c = sep)); [done|]. intros Hw. by rewrite IH.
Qed.

Lemma split_append sep w s :
  occurs sep w = 0 →
  split sep (w +:+ String sep s) = w :: split sep s.
Proof.
  induction w as [|c w IH]; intros Hw.
  - rewrite append_empty. cbn [split]. by rewrite decide_True.
  - cbn [occurs] in Hw. destruct (decide (c = sep)); [done|].
    rewrite append_String. cbn [split]. rewrite decide_False by done.
    by rewrite IH.
Qed.

(** Splitting what was joined from pieces without the separator gives
    the pieces back. *)
Lemma split_join sep w ws :
  Forall (λ w, occurs sep w = 0) (w :: ws) →
  split sep (join (String sep EmptyString) (w :: ws)) = w :: ws.
Proof.
  revert w. induction ws as [|w' ws IH]; intros w [Hw Hws]%Forall_cons.
  - by apply split_free.
  - change (join _ (w :: w' :: ws))
      with (w +:+ String sep EmptyString +:+ join (String sep EmptyString) (w' :: ws)).
    rewrite append_String, append_empty, split_append by done.
    by rewrite IH.
Qed.

Lemma occurs_append c s t : occurs c (s +:+ t) = occurs c s + occurs c t.
Proof.
  induction s as [|d s IH]; [done|]. rewrite append_String. cbn [occurs].
  rewrite IH. lia.
Qed.

(** The first piece of a split is a piece of the string up to the first
    separator: it has no other character either. *)
Lemma split_head_occurs sep c s w ws :
  split sep s = w :: ws → occurs c w ≤ occurs c s.
Proof.
  revert w ws. induction s as [|d s IH]; intros w ws; cbn [split].
  - by intros [= <- <-].
  - destruct (decide (d = sep)).
    + intros [= <- <-]. cbn. lia.
    + destruct (split_cons_inv sep s) as (w' & ws' & Hs). rewrite Hs in *.
      intros [= <- <-]. cbn [occurs]. specialize (IH w' ws' eq_refl). lia.
Qed.

(** ** Accept-Language, the list of pairs and the formats *)

Lemma accept_locales_pieces (pieces : list string) :
  Forall (λ w, occurs "," w = 0) pieces →
  ∃ locales,
    mapM (λ locale, head (split ";" locale)) pieces = Some locales
    ∧ length locales = length pieces
    ∧ Forall (λ l, occurs "," l = 0 ∧ occurs ";" l = 0) locales.
Proof.
  induction pieces as [|w pieces IH]; [by exists []|].
  intros [Hw Hpieces]%Forall_cons.
  destruct (IH Hpieces) as (locales & Hmap & Hlen & Hfree).
  destruct (split_cons_inv ";" w) as (l & ls & Hs).
  exists (l :: locales). cbn. rewrite Hs, Hmap. cbn.
  split; [done|]. split; [by rewrite Hlen|]. constructor; [|done].
  split.
  - pose proof (split_head_occurs ";" "," w l ls Hs). lia.
  - pose proof (split_pieces_free ";" w) as Hfw. rewrite Hs in Hfw.
    by apply Forall_cons in Hfw as [? _].
Qed.

(** X1: [GetLocaleHandler.get] answers 400 exactly when the request has
    no Accept-Language header; with a header it always answers (the
    [[0]] never fails) with one locale per comma-separated item, that is
    one more than there are commas, and no locale contains a comma or a
    semicolon. *)
Theorem GetLocaleHandler_get_locales accept_language :
  (GetLocaleHandler_get accept_language = SentError 400 ↔ accept_language = None)
  ∧ ∀ header, accept_language = Some header →
      ∃ locales,
        GetLocaleHandler_get accept_language = Sent locales
        ∧ length locales = S (occurs "," header)
        ∧ Forall (λ l, occurs "," l = 0 ∧ occurs ";" l = 0) locales.
Proof.
  assert (∀ header, ∃ locales,
            accept_locales header = Some locales
            ∧ length locales = S (occurs "," header)
            ∧ Forall (λ l, occurs "," l = 0 ∧ occurs ";" l = 0) locales) as Hloc.
  { intros header. unfold accept_locales.
    destruct (accept_locales_pieces (split "," header) (split_pieces_free _ _))
      as (locales & Hmap & Hlen & Hfree).
    exists locales. by rewrite Hmap, Hlen, split_length. }
  split.
  - destruct accept_language as [header|]; cbn [GetLocaleHandler_get]; [|done].
    destruct (Hloc header) as (locales & -> & _). by split.
  - intros header ->. destruct (Hloc header) as (locales & Hl & Hlen & Hfree).
    exists locales. cbn [GetLocaleHandler_get]. by rewrite Hl.
Qed.

Lemma split_two sep key :
  (∃ l1 l2, split sep key = [l1; l2]) ↔ occurs sep key = 1.
Proof.
  pose proof (split_length sep key) as Hlen. split.
  - intros (l1 & l2 & Hs). rewrite Hs in Hlen. cbn in Hlen. lia.
  - intros Hone. rewrite Hone in Hlen.
    destruct (split sep key) as [|l1 [|l2 [|l3 rest]]]; try done.
    by exists l1, l2.
Qed.

(** ['%s-%s' % (l1, l2)] splits back into its codes when they have no
    hyphen. *)
Lemma split_pair_name l1 l2 :
  occurs "-" l1 = 0 → occurs "-" l2 = 0 →
  split "-" (pair_name (l1, l2)) = [l1; l2].
Proof.
  intros H1 H2. apply (split_join "-" l1 [l2]). by repeat constructor.
Qed.

(** X2: the listing of [/list?q=pairs] succeeds exactly when every key
    of [self.pairs] has exactly one hyphen (a single key with another
    number of hyphens makes the unpacking raise and the whole listing
    fail).  For keys made as ['%s-%s' % (src, trg)] from codes without
    hyphen, the listing gives the codes back in order, each followed by
    its two-letter form when [include_deprecated_codes] is given. *)
Theorem list_pairs_round_trip toAlpha2Code include_deprecated_codes keys :
  (is_Some (list_pairs toAlpha2Code include_deprecated_codes keys)
   ↔ Forall (λ key, occurs "-" key = 1) keys)
  ∧ ∀ lps : list PairKey,
      Forall (λ lp, occurs "-" lp.1 = 0 ∧ occurs "-" lp.2 = 0) lps →
      list_pairs toAlpha2Code false (pair_name <$> lps) = Some lps
      ∧ list_pairs toAlpha2Code true (pair_name <$> lps)
        = Some (lps ≫= λ lp, [lp; (toAlpha2Code lp.1, toAlpha2Code lp.2)]).
Proof.
  split.
  - induction keys as [|key keys IH]; cbn [list_pairs].
    + split; [constructor|by eexists].
    + rewrite Forall_cons, <- IH, <- split_two. split.
      * destruct (split "-" key) as [|l1 [|l2 [|l3 rest]]];
          try (by intros [? [=]]).
        intros Hsome. split; [by exists l1, l2|].
        destruct (list_pairs _ _ keys); [by eexists|].
        by destruct Hsome as [? [=]].
      * intros [(l1 & l2 & ->) [rest ->]]. by eexists.
  - intros lps Hfree. induction lps as [|[l1 l2] lps IH]; [done|].
    apply Forall_cons in Hfree as [[H1 H2] Hfree].
    destruct (IH Hfree) as [IHf IHt].
    rewrite fmap_cons. cbn [list_pairs].
    rewrite (split_pair_name l1 l2 H1 H2), IHf, IHt. done.
Qed.

Lemma contains_unfold sub s :
  contains sub s
  = String.prefix sub s
    || match s with
       | String _ s' => contains sub s'
       | EmptyString => false
       end.
Proof. by destruct s. Qed.

Lemma prefix_append sub x : String.prefix sub (sub +:+ x) = true.
Proof.
  induction sub as [|c sub IH]; [by destruct x|].
  rewrite append_String. cbn [String.prefix].
  by destruct (Ascii.ascii_dec c c).
Qed.

Lemma contains_append sub x : contains sub (sub +:+ x) = true.
Proof. by rewrite contains_unfold, prefix_append. Qed.

(** X3: whatever the arguments, the first name [getFormat] returns
    contains [apertium-des] and the second contains [apertium-re]; and
    handing the names it returned back as [deformat] and [reformat]
    returns them unchanged. *)
Theorem getFormat_marked a :
  contains "apertium-des" (getFormat a).1 = true
  ∧ contains "apertium-re" (getFormat a).2 = true
  ∧ getFormat (mkFormatArgs None (Some (getFormat a).1) (Some (getFormat a).2))
    = getFormat a.
Proof.
  assert (∀ marker x,
            contains marker (if negb (contains marker x)
                             then marker +:+ x else x) = true) as Hmark.
  { intros marker x. destruct (contains marker x) eqn:Hx; [done|].
    apply contains_append. }
  assert (contains "apertium-des" (getFormat a).1 = true
          ∧ contains "apertium-re" (getFormat a).2 = true) as [Hd Hr].
  { unfold getFormat. destruct (arg_format a) as [[|c f]|]; cbn [fst snd];
      try (split; apply Hmark).
    split; apply contains_append. }
  split; [done|]. split; [done|].
  unfold getFormat at 1. cbn [arg_format arg_deformat arg_reformat default
                              from_option id].
  rewrite Hd, Hr. cbn [negb]. by destruct (getFormat a).
Qed.

(** ** The statistics *)

(** X4: [/stats] reports on a final stretch of the samples.  For
    [requests = n > 0] it is the last [n] of them (all, if there are
    fewer); for [n = 0] it is ALL the samples, not none; for [n < 0] it
    is what is left after the first [-n] samples.  Without a usable
    [requests] argument, 1000 is taken. *)
Theorem periodStats_window requests h :
  (∃ older, stats_timing h = older ++ periodStats requests h)
  ∧ length (periodStats requests h)
    = (let n := default 1000%Z requests in
       if bool_decide (0 < n)%Z
       then Z.to_nat n `min` length (stats_timing h)
       else length (stats_timing h) - Z.to_nat (- n)).
Proof.
  unfold periodStats, slice_last. cbn zeta.
  case_bool_decide; (split; [eexists; symmetry; apply take_drop|]);
    rewrite length_drop; lia.
Qed.

Lemma slice_last_one {A} (l : list A) (x : A) : slice_last 1 (l ++ [x]) = [x].
Proof.
  unfold slice_last. rewrite bool_decide_eq_true_2 by lia.
  rewrite length_app. cbn [length].
  replace (length l + 1 - Z.to_nat 1) with (length l) by lia.
  by rewrite drop_app_length.
Qed.

(** X5: right after a translation was logged with status 200,
    [/stats?requests=1] reports exactly that translation: one request,
    and as many characters as the text had. *)
Theorem stats_after_translation h before len clk h' :
  status h = 200%Z →
  logAfterTranslation before len clk h = (Ok tt, h') →
  StatsHandler_get (Some 1%Z) h' = (1, len, length (pipelines_holding h)).
Proof.
  intros Hst. unfold logAfterTranslation. rewrite bool_decide_eq_true_2 by done.
  destruct (STAT_PERIOD_MAX_AGE _); [|done].
  assert (∀ timing,
            StatsHandler_get (Some 1%Z)
              (with_timing (timing ++ [(before, clk_after clk, len)]) h)
            = (1, len, length (pipelines_holding h))) as Hlast.
  { intros timing. unfold StatsHandler_get, periodStats.
    cbn [stats_timing with_timing pipelines_holding default from_option id].
    rewrite slice_last_one. cbn. by rewrite Z.add_0_r. }
  case_bool_decide; [destruct (stats_timing h); [done|]|];
    intros [= <-]; apply Hlast.
Qed.

Section more_facts.

Context `{External}.

(** ** The options of the command line *)


Lemma getPipeline_timing h lp spawn_ok :
  stats_timing (getPipeline lp spawn_ok h).2 = stats_timing h.
Proof.
  unfold getPipeline, bind, modify, start_pipeline, first_pipe.
  by repeat (case_match; simplify_eq/=).
Qed.


(** ** What can go wrong in a [/translate] request *)

(** [getPipeline] fails only while starting a pipeline: for a pair that
    is not installed, or when the start itself fails. *)
Lemma getPipeline_errors h lp spawn_ok e :
  (getPipeline lp spawn_ok h).1 = Raise e →
  (e = KeyError ∧ pair_name lp ∉ pairs (config h))
  ∨ (e = PipelineError ∧ spawn_ok = false).
Proof.
  destruct (shouldStartPipe h lp.1 lp.2) eqn:Hstart.
  - destruct (decide (pair_name lp ∈ pairs (config h))) as [Hin|Hout].
    + destruct spawn_ok.
      * destruct (getPipeline_starts h lp Hstart Hin) as (_ & Hres & _).
        cbn zeta in Hres. rewrite Hres.
        destruct (perm_cons_head _ _ _
                    (heappush_perm Pipeline_lt (pool h lp)
                       (makePipeline (next_pid h)))) as [p ->].
        done.
      * unfold getPipeline, bind, modify, start_pipeline. rewrite Hstart.
        cbn [config with_pipelines].
        destruct (decide (pipelines h !! lp = None)); cbn [config];
          rewrite bool_decide_eq_true_2 by done; cbn; intros [= <-]; by right.
    + unfold getPipeline, bind, modify, start_pipeline. rewrite Hstart.
      destruct (decide (pipelines h !! lp = None)); cbn [config with_pipelines];
        rewrite bool_decide_eq_false_2 by done; cbn; intros [= <-]; by left.
  - destruct (getPipeline_reuses h lp spawn_ok Hstart) as (p & _ & ->). done.
Qed.

Lemma accepted_installed h langpair n before clk lp h1 :
  getPairOrError langpair n before clk h = (Ok (Some lp), h1) →
  h1 = h ∧ pair_name lp ∈ pairs (config h).
Proof.
  rewrite getPairOrError_cases.
  destruct (toAlpha3Code <$> split "|" langpair) as [|l1 [|l2 [|l3 rest]]];
    try done.
  case_bool_decide; [|done]. by intros [= <- <-].
Qed.

(** X7: the ways [TranslateHandler.get] can end in an exception.  A
    missing [langpair] or [q] is tornado's 400; a pipeline that cannot
    be started or a failed translate step; [AttributeError] when no
    statistics window is defined; [IndexError] when the oldest sample is
    to be dropped from an empty list.  In particular the look-up of the
    mode file never raises [KeyError]: [getPairOrError] has checked the
    pair. *)
Theorem get_failures h req o e :
  (get req o h).1 = Raise e →
  (e = HTTPError 400 ∧ (arg_langpair req = None ∨ arg_q req = None))
  ∨ (e = PipelineError ∧ (o_spawn_ok o = false ∨ o_translated o = None))
  ∨ (e = AttributeError ∧ STAT_PERIOD_MAX_AGE (config h) = None)
  ∨ (e = IndexError ∧ stats_timing h = []).
Proof.
  unfold get, bind, get_argument.
  destruct (arg_langpair req) as [langpair|]; [|intros [= <-]; auto].
  destruct (arg_q req) as [q|]; [|intros [= <-]; auto].
  unfold ret. cbv beta iota.
  destruct (getPairOrError _ _ _ _ h) as [[[[l1 l2]|]|e1] h1] eqn:Hpair.
  - apply accepted_installed in Hpair as [-> Hin].
    pose proof (getPipeline_errors h (l1, l2) (o_spawn_ok o)) as Herr.
    pose proof (getPipeline_config h (l1, l2) (o_spawn_ok o)) as Hcfg.
    pose proof (getPipeline_timing h (l1, l2) (o_spawn_ok o)) as Htm.
    destruct (getPipeline (l1, l2) (o_spawn_ok o) h) as [[p|e2] h2].
    + cbn [snd] in Hcfg, Htm.
      unfold translateAndRespond, bind, modify, translate, logAfterTranslation.
      destruct (o_translated o) as [translated|]; [|intros [= <-]; auto].
      cbn [status config emit map_pipes with_holding with_pipelines notePairUsage
           with_useCount stats_timing].
      rewrite Hcfg, Htm.
      case_bool_decide; [|by destruct (maybeStripMarks _ _ _ _)].
      destruct (STAT_PERIOD_MAX_AGE (config h)); [|intros [= <-]; auto].
      case_bool_decide; [destruct (stats_timing h) eqn:Hempty|];
        try (by destruct (maybeStripMarks _ _ _ _)).
      intros [= <-]. auto.
    + intros [= <-]. destruct (Herr e2 eq_refl) as [[_ Hout]|[-> ->]]; [done|auto].
  - done.
  - rewrite getPairOrError_cases in Hpair. by repeat case_match.
Qed.

Lemma serve_config req o h : config (serve req o h) = config h.
Proof.
  unfold serve.
  assert (∀ h0, config (get req o h0).2 = config h0) as Hget.
  { intros h0. unfold get, bind, get_argument, ret.
    destruct (arg_langpair req); [|done]. destruct (arg_q req); [|done].
    rewrite getPairOrError_cases.
    destruct (toAlpha3Code <$> split "|" _) as [|l1 [|l2 [|l3 rest]]]; try done.
    case_bool_decide; [|done].
    pose proof (getPipeline_config h0 (l1, l2) (o_spawn_ok o)) as Hcfg.
    destruct (getPipeline _ _ h0) as [[p|e] h2]; [|done].
    cbn [snd] in Hcfg. rewrite <- Hcfg.
    unfold translateAndRespond, bind, modify, translate, logAfterTranslation,
      maybeStripMarks, noteUnknownTokens.
    by repeat (case_match; simplify_eq/=). }
  specialize (Hget (new_request h)).
  destruct (get req o (new_request h)) as [[[]|[]] h']; exact Hget.
Qed.

(** Every request for an accepted pair whose pipeline can be started is
    counted, however it ends. *)
Lemma serve_counts req o h langpair q c1 c2 :
  arg_langpair req = Some langpair → arg_q req = Some q →
  o_spawn_ok o = true →
  split "|" langpair = [c1; c2] →
  pair_name (toAlpha3Code c1, toAlpha3Code c2) ∈ pairs (config h) →
  let lp := (toAlpha3Code c1, toAlpha3Code c2) in
  stats_useCount (serve req o h)
  = <[lp := (1 + default 0 (stats_useCount h !! lp))%Z]> (stats_useCount h).
Proof.
  intros Hlp Hq Hok Hsplit Hin. cbn zeta. unfold serve.
  assert (stats_useCount (get req o (new_request h)).2
          = <[(toAlpha3Code c1, toAlpha3Code c2) :=
                (1 + default 0 (stats_useCount h
                                  !! (toAlpha3Code c1, toAlpha3Code c2)))%Z]>
              (stats_useCount h))
    as Hget.
  { unfold get, bind, get_argument. rewrite Hlp, Hq. unfold ret. cbv beta iota.
    rewrite getPairOrError_cases, Hsplit. cbn [fmap list_fmap].
    change (config (new_request h)) with (config h).
    rewrite bool_decide_eq_true_2 by done.
    pose proof (getPipeline_errors (new_request h)
                  (toAlpha3Code c1, toAlpha3Code c2) (o_spawn_ok o)) as Herr.
    pose proof (getPipeline_useCount (new_request h)
                  (toAlpha3Code c1, toAlpha3Code c2) (o_spawn_ok o)) as Huc.
    destruct (getPipeline _ _ (new_request h)) as [[p|e] h2].
    - rewrite translateAndRespond_useCount. cbn [snd] in Huc. by rewrite Huc.
    - destruct (Herr e eq_refl) as [[_ Hout]|[_ Hno]]; [done|congruence]. }
  destruct (get req o (new_request h)) as [[[]|[]] h']; exact Hget.
Qed.

(** X8: [n] requests for one accepted pair, each with its arguments
    and a pipeline that can be started, raise [useCount] of the pair by
    exactly [n], whether the translations succeed or fail, and leave the
    counters of the other pairs alone. *)
Theorem serve_all_counts requests h langpair c1 c2 :
  Forall (λ ro, arg_langpair ro.1 = Some langpair ∧ is_Some (arg_q ro.1)
                ∧ o_spawn_ok ro.2 = true) requests →
  split "|" langpair = [c1; c2] →
  pair_name (toAlpha3Code c1, toAlpha3Code c2) ∈ pairs (config h) →
  let lp := (toAlpha3Code c1, toAlpha3Code c2) in
  default 0%Z (stats_useCount (serve_all requests h) !! lp)
  = (default 0 (stats_useCount h !! lp) + Z.of_nat (length requests))%Z
  ∧ ∀ lp', lp' ≠ lp →
      stats_useCount (serve_all requests h) !! lp' = stats_useCount h !! lp'.
Proof.
  intros Hall Hsplit. cbn zeta. revert h.
  induction Hall as [|[req o] requests (Hlp & [q Hq] & Hok) Hall IH]; intros h Hin.
  - split; [cbn; lia|done].
  - change (serve_all ((req, o) :: requests) h)
      with (serve_all requests (serve req o h)).
    cbn [fst snd] in Hlp, Hq, Hok.
    pose proof (serve_counts req o h langpair q c1 c2 Hlp Hq Hok Hsplit Hin)
      as Hone. cbn zeta in Hone.
    destruct (IH (serve req o h)) as [IHlp IHother];
      [by rewrite serve_config|].
    split.
    + rewrite IHlp, Hone, lookup_insert_eq. cbn [default from_option id length]. lia.
    + intros lp' Hne. rewrite (IHother lp' Hne), Hone.
      by rewrite lookup_insert_ne.
Qed.

(** ** Pipelines in use are never lost *)

Lemma to_clean_in_pool c now pipes p : p ∈ to_clean c now pipes → p ∈ pipes.
Proof.
  unfold to_clean. intros Hp.
  assert (p ∈ cleanable_from c now 0 pipes) as Hin.
  { induction (cleanable_from c now 0 pipes) as [|q l IH];
      [by apply elem_of_nil in Hp|].
    cbn [set_of] in Hp. destruct (decide _); [right; by apply IH|].
    apply elem_of_cons in Hp as [->|]; [left|right; by apply IH]. }
  apply elem_of_cleanable_from in Hin as (j & Hj & _).
  by eapply list_elem_of_lookup_2.
Qed.

Lemma pool_lookup h lp p :
  p ∈ pool h lp → pipelines h !! lp = Some (pool h lp).
Proof.
  unfold pool. destruct (pipelines h !! lp); [done|].
  by intros ?%elem_of_nil.
Qed.

(** X9: the janitor never loses a pipeline that has users.  A pipeline
    with [users > 0] that is in the pool of its pair (a pool of distinct
    pipelines) or in the holding area before [cleanPairs] is in that pool
    or in the holding area afterwards. *)
Theorem cleanPairs_keeps_pipes_in_use h now lp p :
  NoDup (pid <$> pool h lp) →
  (0 < users p)%Z →
  p ∈ pool h lp ∨ p ∈ pipelines_holding h →
  p ∈ pool (cleanPairs now h) lp ∨ p ∈ pipelines_holding (cleanPairs now h).
Proof.
  intros Hnd Husers [Hpool|Hheld].
  - apply list_elem_of_lookup_1 in Hpool as Hi. destruct Hi as [i Hi].
    destruct (to_clean_at (config h) (now lp) (pool h lp) i p Hnd Hi)
      as [Hpid Hmem].
    destruct (cleanable (config h) (now lp i) i p) eqn:Hc.
    + right. apply elem_of_holding_cleanPairs. split; [done|].
      apply elem_of_holding_clean_pools. right.
      exists lp, (pool h lp). split; [by apply (pool_lookup h lp p)|].
      by apply Hmem.
    + left. rewrite pool_cleanPairs, elem_of_clean_pool. split; [done|].
      rewrite Hpid. congruence.
  - right. apply elem_of_holding_cleanPairs. split; [done|].
    apply elem_of_holding_clean_pools. by left.
Qed.

(** ** A held pipeline is never handed out *)

Lemma holding_getPipeline h lp spawn_ok :
  pipelines_holding (getPipeline lp spawn_ok h).2 = pipelines_holding h.
Proof.
  unfold getPipeline, bind, modify, start_pipeline, first_pipe.
  by repeat (case_match; simplify_eq/=).
Qed.

Lemma getPipeline_front h lp spawn_ok p h' :
  getPipeline lp spawn_ok h = (Ok p, h') → head (pool h' lp) = Some p.
Proof.
  unfold getPipeline, bind, modify, start_pipeline, first_pipe, pool.
  intros Hget. repeat (case_match; simplify_eq/=);
    match goal with
    | Hl : pipelines _ !! lp = Some _ |- _ => by rewrite Hl
    | Hl : <[lp := _]> _ !! lp = Some _ |- _ => by rewrite Hl
    end.
Qed.

Lemma elem_of_heappush (pipes : list Pipeline) p q :
  q ∈ Heapq.heappush Pipeline_lt pipes p ↔ q = p ∨ q ∈ pipes.
Proof. by rewrite heappush_perm, elem_of_cons. Qed.

Lemma step_pids_apart op h :
  pids_distinct h → pids_apart h → pids_apart (step op h).
Proof.
  intros Hd (Hpools & Hheld & Hold). destruct op as [lp spawn_ok|now|f]; cbn [step].
  - assert (∀ lp' q, q ∈ pool (getPipeline lp spawn_ok h).2 lp' →
              (pid q = next_pid h ∧ lp' = lp
               ∧ next_pid (getPipeline lp spawn_ok h).2 = S (next_pid h))
              ∨ q ∈ pool h lp') as Hin.
    { intros lp' q. rewrite pool_getPipeline, getPipeline_next_pid.
      destruct (_ && _ && spawn_ok); cbn [andb]; [|by right].
      case_bool_decide as Heq; [subst lp'|by right].
      rewrite elem_of_heappush. intros [->|]; [by left|by right]. }
    assert (next_pid h ≤ next_pid (getPipeline lp spawn_ok h).2) as Hnext.
    { rewrite getPipeline_next_pid. destruct (_ && _ && _); lia. }
    assert (∀ lp' q, q ∈ pool h lp' → pid q < next_pid h) as Hlt.
    { intros lp' q Hq. destruct (Hd lp') as [_ Hall].
      rewrite Forall_forall in Hall. by apply Hall. }
    rewrite Forall_forall in Hold.
    repeat split.
    + intros lp1 lp2 p q Hp Hq Hpid.
      destruct (Hin _ _ Hp) as [(Hp1 & -> & _)|Hp1];
        destruct (Hin _ _ Hq) as [(Hq1 & -> & _)|Hq1]; try done.
      * specialize (Hlt _ _ Hq1). lia.
      * specialize (Hlt _ _ Hp1). lia.
      * by eapply Hpools.
    + intros lp' p q Hp. rewrite holding_getPipeline. intros Hq.
      destruct (Hin _ _ Hp) as [(Hp1 & _ & _)|Hp1].
      * specialize (Hold _ Hq). lia.
      * by eapply Hheld.
    + rewrite holding_getPipeline. apply Forall_forall. intros q Hq.
      specialize (Hold _ Hq). lia.
  - assert (∀ q, q ∈ pipelines_holding (cleanPairs now h) →
              q ∈ pipelines_holding h
              ∨ ∃ lp2, q ∈ pool h lp2
                       ∧ q ∈ to_clean (config h) (now lp2) (pool h lp2)) as Hin.
    { intros q [_ Hq]%elem_of_holding_cleanPairs.
      apply elem_of_holding_clean_pools in Hq as [|(lp2 & pipes & Hlp2 & Hq)];
        [by left|right].
      exists lp2. unfold pool. rewrite Hlp2. cbn [default from_option id].
      split; [by eapply to_clean_in_pool|done]. }
    repeat split.
    + intros lp1 lp2 p q. rewrite !pool_cleanPairs, !elem_of_clean_pool.
      intros [Hp _] [Hq _]. by eapply Hpools.
    + intros lp' p q. rewrite pool_cleanPairs, elem_of_clean_pool.
      intros [Hp Hout] Hq Hpid.
      destruct (Hin _ Hq) as [Hq1|(lp2 & Hq1 & Hq2)].
      * by eapply Hheld.
      * assert (lp' = lp2) as <- by (by eapply Hpools).
        apply Hout. rewrite Hpid. by apply list_elem_of_fmap_2.
    + apply Forall_forall. intros q Hq.
      change (next_pid (cleanPairs now h)) with (next_pid h).
      destruct (Hin _ Hq) as [Hq1|(lp2 & Hq1 & _)].
      * rewrite Forall_forall in Hold. by apply Hold.
      * destruct (Hd lp2) as [_ Hall]. rewrite Forall_forall in Hall.
        by apply Hall.
  - set (upd := λ p, mkPipeline (pid p) (f p).1.1 (f p).1.2 (f p).2).
    assert (pipelines_holding (touch f h) = upd <$> pipelines_holding h) as Hh
      by done.
    repeat split.
    + intros lp1 lp2 p q. rewrite !pool_touch.
      intros (p0 & -> & Hp)%list_elem_of_fmap (q0 & -> & Hq)%list_elem_of_fmap.
      cbn [pid]. by apply Hpools.
    + intros lp' p q. rewrite pool_touch, Hh.
      intros (p0 & -> & Hp)%list_elem_of_fmap (q0 & -> & Hq)%list_elem_of_fmap.
      unfold upd. cbn [pid]. by apply (Hheld lp').
    + rewrite Hh. change (next_pid (touch f h)) with (next_pid h).
      apply Forall_fmap. eapply Forall_impl; [exact Hold|]. by intros [].
Qed.

Lemma run_snoc ops op h : run (ops ++ [op]) h = step op (run ops h).
Proof. unfold run. by rewrite foldl_app. Qed.

Lemma run_pids_apart ops c db : pids_apart (run ops (fresh_handler c db)).
Proof.
  induction ops as [|op ops IH] using rev_ind.
  - repeat split.
    + intros lp1 lp2 p q Hp. unfold pool, fresh_handler in Hp. cbn in Hp.
      rewrite lookup_empty in Hp. by apply elem_of_nil in Hp.
    + intros lp p q _ Hq. by apply elem_of_nil in Hq.
    + constructor.
  - rewrite run_snoc. apply step_pids_apart; [apply run_pids_distinct|done].
Qed.

(** X10: in every state the pool operations can reach, no pipeline of
    the holding area is in a pool, and no pipeline is in the pools of two
    pairs; so the pipeline [getPipeline] hands out is never one that is
    held for shutdown. *)
Theorem held_pipeline_never_handed_out ops c db :
  let h := run ops (fresh_handler c db) in
  (∀ lp p q, p ∈ pool h lp → q ∈ pipelines_holding h → pid p ≠ pid q)
  ∧ (∀ lp1 lp2 p q, p ∈ pool h lp1 → q ∈ pool h lp2 → pid p = pid q → lp1 = lp2)
  ∧ (∀ lp spawn_ok p q,
       (getPipeline lp spawn_ok h).1 = Ok p →
       q ∈ pipelines_holding h → pid p ≠ pid q).
Proof.
  cbn zeta. destruct (run_pids_apart ops c db) as (Hpools & Hheld & _).
  split; [done|]. split; [done|].
  intros lp spawn_ok p q Hget Hq.
  destruct (run_pids_apart (ops ++ [OpGetPipeline lp spawn_ok]) c db)
    as (_ & Hheld' & _).
  rewrite run_snoc in Hheld'. cbn [step] in Hheld'.
  destruct (getPipeline lp spawn_ok (run ops (fresh_handler c db)))
    as [r h'] eqn:Hr. cbn [fst snd] in *. subst r.
  pose proof (holding_getPipeline (run ops (fresh_handler c db)) lp spawn_ok) as Hh.
  rewrite Hr in Hh. cbn [snd] in Hh.
  apply (Hheld' lp p q); [|by rewrite Hh].
  apply getPipeline_front in Hr. by apply head_Some_elem_of.
Qed.

(** ** Arguments read early and late *)

(** X11: [TranslateHandler.get] reads [langpair] and [q] before it
    touches anything: with one of them missing it ends in tornado's 400
    and the state is as before.  [TranslatePageHandler.get] reads [url]
    only after [getPipeline]: for an accepted pair without pipe, a request
    without [url] ends in the same 400 but has started a pipeline (it is
    in the pool), and nothing was translated or counted. *)
Theorem url_is_read_after_the_pipeline h req o fetched langpair c1 c2 :
  arg_langpair req = Some langpair →
  split "|" langpair = [c1; c2] →
  pair_name (toAlpha3Code c1, toAlpha3Code c2) ∈ pairs (config h) →
  pool h (toAlpha3Code c1, toAlpha3Code c2) = [] →
  o_spawn_ok o = true →
  let lp := (toAlpha3Code c1, toAlpha3Code c2) in
  let r := TranslatePageHandler_get req None fetched o h in
  get (mkRequest (Some langpair) None (arg_markUnknown req)) o h
  = (Raise (HTTPError 400), h)
  ∧ r.1 = PageDone (Raise (HTTPError 400))
  ∧ pool r.2 lp = [makePipeline (next_pid h)]
  ∧ trace r.2 = trace h ++ [EvMakePipeline lp (next_pid h)]
  ∧ stats_useCount r.2 = stats_useCount h.
Proof.
  intros Hlp Hsplit Hin Hempty Hok. cbn zeta. split; [done|].
  unfold TranslatePageHandler_get, bind, get_argument. rewrite Hlp.
  unfold ret. cbv beta iota. rewrite getPairOrError_cases, Hsplit.
  cbn [fmap list_fmap]. rewrite bool_decide_eq_true_2 by done.
  set (lp := (toAlpha3Code c1, toAlpha3Code c2)) in *.
  assert (shouldStartPipe h lp.1 lp.2 = true) as Hstart.
  { unfold shouldStartPipe. fold (pool h (lp.1, lp.2)).
    by rewrite <- surjective_pairing, Hempty. }
  destruct (getPipeline_starts h lp Hstart Hin) as (Hpool & Hres & _).
  cbn zeta in Hpool, Hres. rewrite Hempty in Hpool, Hres.
  assert (Heapq.heappush Pipeline_lt [] (makePipeline (next_pid h))
          = [makePipeline (next_pid h)]) as Hpush.
  { pose proof (heappush_perm Pipeline_lt [] (makePipeline (next_pid h))) as Hp.
    by apply Permutation_singleton_r in Hp. }
  rewrite Hpush in Hpool, Hres. cbn in Hres.
  pose proof (getPipeline_useCount h lp true) as Huc.
  assert (trace (getPipeline lp true h).2
          = trace h ++ [EvMakePipeline lp (next_pid h)]) as Htr.
  { unfold getPipeline, bind, modify, start_pipeline, first_pipe.
    rewrite Hstart.
    destruct (decide (pipelines h !! lp = None)); cbn [config with_pipelines];
      rewrite bool_decide_eq_true_2 by done; cbn [negb];
      by repeat (case_match; simplify_eq/=). }
  rewrite Hok. destruct (getPipeline lp true h) as [r2 h2].
  cbn [fst snd] in *. subst r2. done.
Qed.

(** ** Documents *)

Lemma allowed_format_values mtype format :
  allowed_format mtype = Some format →
  format ∈ ["txt"; "html-noent"; "rtf"; "docx"; "pptx"; "xlsx"; "odt"; "latex"].
Proof.
  unfold allowed_format. intros Hf.
  assert (format ∈ allowedMimeTypes.*2) as Hin.
  { destruct (head _) as [[k v]|] eqn:Hhead; [|done].
    injection Hf as <-. apply head_Some_elem_of in Hhead.
    apply list_elem_of_filter in Hhead as [_ Hkv].
    by apply (list_elem_of_fmap_2 snd) in Hkv. }
  revert Hin. generalize format.
  apply Forall_forall. by repeat (constructor; [set_solver|]).
Qed.

(** X12: the checks of [TranslateDocHandler.get], in their order.  A
    refused [langpair] is answered with 400 whatever the file (and a
    [langpair] that does not split into two codes ends, after that
    answer, in [UnboundLocalError]).  For an installed pair with a file,
    413 is sent exactly when the body has more than 32,000,000 bytes, and
    the document is translated exactly when it has at most that many and
    its MIME type is one of the allowed ones.  A translation only ever
    uses one of eight formats and an installed pair. *)
Theorem TranslateDocHandler_get_checks c req langpair :
  doc_langpair req = Some langpair →
  let r := TranslateDocHandler_get c req in
  (refused c langpair → r.1 = [DocSendError 400])
  ∧ ((∀ c1 c2, split "|" langpair ≠ [c1; c2]) → r.2 = Some "UnboundLocalError")
  ∧ (¬ refused c langpair → ∀ len, doc_file req = Some len →
       (r = ([DocSendError 413], None) ↔ (32000000 < len)%Z)
       ∧ ((∃ format lp markUnknown, r = ([DocTranslate format lp markUnknown], None))
          ↔ (len ≤ 32000000)%Z ∧ is_Some (allowed_format (doc_mtype req))))
  ∧ (∀ format lp markUnknown,
       DocTranslate format lp markUnknown ∈ r.1 →
       format ∈ ["txt"; "html-noent"; "rtf"; "docx"; "pptx"; "xlsx"; "odt"; "latex"]
       ∧ lp ∈ pairs c).
Proof.
  intros Hlp. cbn zeta. unfold TranslateDocHandler_get. rewrite Hlp.
  pose proof (refused_iff c langpair) as Href.
  assert ((∀ c1 c2, split "|" langpair ≠ [c1; c2]) →
          ∀ l1 l2, toAlpha3Code <$> split "|" langpair ≠ [l1; l2]) as Hshape.
  { intros Hno l1 l2 Heq.
    destruct (split "|" langpair) as [|c1 [|c2 [|c3 rest]]]; try done.
    by destruct (Hno c1 c2). }
  destruct (toAlpha3Code <$> split "|" langpair) as [|l1 [|l2 [|l3 rest]]]
    eqn:Hsplit; cbn [fst snd].
  1,2,4: (split; [done|]; split; [done|]; split;
          [intros Hn; destruct Hn; by apply Href
          |intros ??? Hx; apply list_elem_of_singleton in Hx; done]).
  split; [|split; [intros Hno; by destruct (Hshape Hno l1 l2)|split]].
  - intros Hout%Href. by rewrite bool_decide_eq_false_2.
  - intros Hin len ->.
    assert (pair_name (l1, l2) ∈ pairs c) as Hin'.
    { destruct (decide (pair_name (l1, l2) ∈ pairs c)) as [|Hout]; [done|].
      destruct Hin. by apply Href. }
    rewrite bool_decide_eq_true_2 by done.
    case_bool_decide as Hbig.
    + split; [done|]. split; [by intros (? & ? & ? & [=])|lia].
    + destruct (allowed_format (doc_mtype req)) as [format|] eqn:Hfmt.
      * split; [split; [done|lia]|].
        split; [intros _; split; [lia|by eexists]|].
        intros _. by eexists _, _, _.
      * split; [split; [done|lia]|].
        split; [by intros (? & ? & ? & [=])|]. by intros [_ [? [=]]].
  - intros format lp markUnknown.
    case_bool_decide as Hin; cbn [fst];
      [|intros Hx; apply list_elem_of_singleton in Hx; done].
    destruct (doc_file req) as [len|]; cbn [fst];
      [|by intros ?%elem_of_nil].
    case_bool_decide;
      [intros Hx; apply list_elem_of_singleton in Hx; done|].
    destruct (allowed_format (doc_mtype req)) as [f|] eqn:Hfmt;
      intros Hx; apply list_elem_of_singleton in Hx; [|done].
    injection Hx as -> -> ->. split; [by eapply allowed_format_values|done].
Qed.

End more_facts.

(** ** One word out of many *)

Lemma words_before_cons {A} (input : A → string) i u (units : list A) :
  words_before input (S i) (u :: units)
  = (Z.of_nat (length (split " " (input u))) + words_before input i units)%Z.
Proof. reflexivity. Qed.

Lemma words_before_ge {A} (input : A → string) i (units : list A) :
  i ≤ length units → (Z.of_nat i ≤ words_before input i units)%Z.
Proof.
  revert i. induction units as [|u units IH]; intros [|i] Hi; cbn in Hi;
    try (cbn; lia).
  rewrite words_before_cons. specialize (IH i ltac:(lia)).
  pose proof (split_length " " (input u)). lia.
Qed.

Lemma select_unit_from {A} (input : A → string) rp cur (units : list A) :
  match select_unit input rp cur units with
  | Some u =>
      ∃ i, units !! i = Some u
           ∧ (rp < cur + words_before input (S i) units)%Z
           ∧ (0 < i → (cur + words_before input i units ≤ rp)%Z)
  | None =>
      units = [] ∨ (cur + words_before input (length units) units ≤ rp)%Z
  end.
Proof.
  revert cur. induction units as [|u units IH]; intros cur; cbn [select_unit].
  - by left.
  - case_bool_decide as Hpass.
    + exists 0. split; [done|]. rewrite words_before_cons.
      change (words_before input 0 units) with 0%Z. split; lia.
    + specialize (IH (cur + Z.of_nat (length (split " " (input u))))%Z).
      destruct (select_unit _ _ _ units) as [v|].
      * destruct IH as (i & Hi & Hlt & Hge). exists (S i).
        split; [done|]. rewrite !words_before_cons. split; [clear -Hlt; lia|].
        intros _. destruct (decide (i = 0)) as [->|Hpos].
        -- change (words_before input 0 units) with 0%Z. clear -Hpass. lia.
        -- specialize (Hge ltac:(lia)). clear -Hge. lia.
      * right. cbn [length]. rewrite words_before_cons.
        destruct IH as [->|IH];
          [change (words_before input (length []) []) with 0%Z; clear -Hpass; lia
          |clear -IH; lia].
Qed.

(** X13: with [pos] given, [PerWordHandler] sends the first unit at
    which the running count of words passes [pos - 1].  It sends nothing
    at all when there is no unit or when [pos - 1] is not below the total
    count of words.  Every unit counts for at least one word (an empty
    input too), so with units a [pos] up to their number is always
    answered, and so is any [pos] below 1, with the first unit. *)
Theorem select_unit_by_words {A} (input : A → string) requestedPos (units : list A) :
  match select_unit input requestedPos 0 units with
  | Some u =>
      ∃ i, units !! i = Some u
           ∧ (requestedPos < words_before input (S i) units)%Z
           ∧ (0 < i → (words_before input i units ≤ requestedPos)%Z)
  | None =>
      units = [] ∨ (words_before input (length units) units ≤ requestedPos)%Z
  end
  ∧ (units ≠ [] → (requestedPos < Z.of_nat (length units))%Z →
     is_Some (select_unit input requestedPos 0 units))
  ∧ ((requestedPos < 0)%Z → select_unit input requestedPos 0 units = head units).
Proof.
  pose proof (select_unit_from input requestedPos 0 units) as Hsel.
  split; [|split].
  - destruct (select_unit _ _ _ _); [|destruct Hsel; [by left|right; lia]].
    destruct Hsel as (i & Hi & Hlt & Hge). exists i.
    split; [done|]. split; [lia|]. intros Hpos. specialize (Hge Hpos). lia.
  - intros Hne Hlt. destruct (select_unit _ _ _ _); [done|].
    destruct Hsel as [|Hsel]; [done|].
    pose proof (words_before_ge input (length units) units ltac:(lia)). lia.
  - intros Hneg. destruct units as [|u units]; [done|]. cbn [select_unit head].
    rewrite bool_decide_eq_true_2; [done|].
    pose proof (split_length " " (input u)). lia.
Qed.

(** ** More on the marks *)

Lemma strip_marks_length s :
  String.length (strip_marks s) + length (marked_tokens s) = String.length s.
Proof.
  induction s as [|c s IH]; [done|]. cbn [strip_marks marked_tokens].
  destruct (_ && _); cbn [String.length length]; lia.
Qed.

Lemma take_token_idem s : take_token (take_token s) = take_token s.
Proof.
  induction s as [|c s IH]; [done|]. cbn [take_token].
  destruct (token_char c) eqn:Hc; [|done]. cbn [take_token].
  by rewrite Hc, IH.
Qed.

Lemma marked_tokens_shape s :
  Forall (λ t, t ≠ EmptyString ∧ take_token t = t) (marked_tokens s).
Proof.
  induction s as [|c s IH]; [constructor|]. cbn [marked_tokens].
  destruct (_ && _) eqn:Hm; [|done]. constructor; [|done].
  apply andb_true_iff in Hm as [_ Hb]. split; [|apply take_token_idem].
  destruct s as [|d s]; [done|]. cbn in Hb. cbn [take_token]. by rewrite Hb.
Qed.

Lemma strip_marks_without_star s :
  occurs "*" s = 0 → strip_marks s = s ∧ marked_tokens s = [].
Proof.
  induction s as [|c s IH]; [done|]. cbn [occurs strip_marks marked_tokens].
  destruct (decide (c = "*"%char)); [done|]. intros Hs.
  rewrite bool_decide_eq_false_2 by done. cbn [andb].
  destruct (IH Hs) as [-> ->]. done.
Qed.

(** X14: how the answer and the store go together.  With a store
    configured and marks not wanted, the text [maybeStripMarks] returns is
    shorter than the translation by exactly the number of tokens it
    notes; every token noted is non-empty and made of token characters
    only; and a translation without [*] is returned as it is and notes
    nothing. *)
Theorem maybeStripMarks_accounting h db lp translated :
  missingFreqsDb h = Some db →
  let r := maybeStripMarks false lp translated h in
  (∃ noted, missingFreqsDb r.2 = Some (db ++ noted)
     ∧ String.length r.1 + length noted = String.length translated
     ∧ Forall (λ tp, tp.1 ≠ EmptyString ∧ take_token tp.1 = tp.1
                     ∧ tp.2 = pair_name lp) noted)
  ∧ (occurs "*" translated = 0 → r = (translated, with_missing (Some (db ++ [])) h)).
Proof.
  intros Hdb. cbn zeta.
  unfold maybeStripMarks, noteUnknownTokens, Re.sub, Re.findall.
  rewrite Hdb, sub_from_unknownMarkRE, findall_from_unknownMarkRE.
  cbn [skip_chars fst snd missingFreqsDb with_missing]. split.
  - eexists. split; [done|]. rewrite length_fmap. split; [apply strip_marks_length|].
    apply Forall_fmap. eapply Forall_impl; [apply marked_tokens_shape|].
    by intros t [? ?].
  - intros Hno. by destruct (strip_marks_without_star translated Hno) as [-> ->].
Qed.

(* ===================================================================== *)
(** * Part V: the theorems of Part IV at work on sample data *)
(* ===================================================================== *)

Example GetLocaleHandler_get_samples :
  GetLocaleHandler_get (Some "nb-NO,nb;q=0.8,en;q=0.5") = Sent ["nb-NO"; "nb"; "en"]
  ∧ GetLocaleHandler_get (Some "") = Sent [""]
  ∧ GetLocaleHandler_get None = SentError 400.
Proof. vm_compute. done. Qed.

Example select_unit_samples :
  select_unit id 0 0 ["the"; "big house"; "falls"] = Some "the"
  ∧ select_unit id (-1) 0 ["the"; "big house"; "falls"] = Some "the"
  ∧ select_unit id 2 0 ["the"; "big house"; "falls"] = Some "big house"
  ∧ select_unit id 3 0 ["the"; "big house"; "falls"] = Some "falls"
  ∧ select_unit id 4 0 ["the"; "big house"; "falls"] = None.
Proof. vm_compute. done. Qed.

Lemma stats_after_translation_witness :
  status sample_handler = 200%Z
  ∧ logAfterTranslation 10 11 sample_clock sample_handler
    = (Ok tt, with_timing [(10, 20, 11)%Z] sample_handler)
  ∧ StatsHandler_get (Some 1%Z) (with_timing [(10, 20, 11)%Z] sample_handler)
    = (1, 11%Z, 0).
Proof.
  assert (logAfterTranslation 10 11 sample_clock sample_handler
          = (Ok tt, with_timing [(10, 20, 11)%Z] sample_handler)) as Hlog
    by (vm_compute; reflexivity).
  split; [reflexivity|]. split; [exact Hlog|].
  exact (stats_after_translation sample_handler 10 11 sample_clock
           (with_timing [(10, 20, 11)%Z] sample_handler) eq_refl Hlog).
Defined.


Lemma get_failures_witness :
  (get (H := sample_external) (sample_request "en|es" None)
     (sample_oracle None) sample_handler).1 = Raise PipelineError
  ∧ o_translated (sample_oracle None) = None.
Proof.
  assert ((get (H := sample_external) (sample_request "en|es" None)
             (sample_oracle None) sample_handler).1 = Raise PipelineError) as Hget
    by (vm_compute; reflexivity).
  split; [exact Hget|].
  destruct (get_failures (H := sample_external) sample_handler
              (sample_request "en|es" None) (sample_oracle None) PipelineError Hget)
    as [[Hno _]|[[_ [Hspawn|Hout]]|[[Hno _]|[Hno _]]]];
    [discriminate Hno|discriminate Hspawn|exact Hout
    |discriminate Hno|discriminate Hno].
Defined.

Lemma serve_all_counts_witness :
  Forall (λ ro, arg_langpair ro.1 = Some "en|es" ∧ is_Some (arg_q ro.1)
                ∧ o_spawn_ok ro.2 = true) two_requests
  ∧ default 0%Z (stats_useCount
                   (serve_all (H := sample_external) two_requests sample_handler)
                 !! eng_spa) = 2%Z.
Proof.
  assert (Forall (λ ro, arg_langpair ro.1 = Some "en|es" ∧ is_Some (arg_q ro.1)
                        ∧ o_spawn_ok ro.2 = true) two_requests) as Hall.
  { repeat constructor; by eexists. }
  assert (pair_name (toAlpha3Code (External := sample_external) "en",
                     toAlpha3Code (External := sample_external) "es")
          ∈ pairs (config sample_handler)) as Hin.
  { apply (bool_decide_unpack _). vm_compute. exact I. }
  split; [exact Hall|].
  exact (proj1 (serve_all_counts (H := sample_external) two_requests
                  sample_handler "en|es" "en" "es" Hall eq_refl Hin)).
Defined.

Lemma cleanPairs_keeps_pipes_in_use_witness :
  NoDup (pid <$> pool worn_handler eng_spa)
  ∧ (0 < users worn_pipe)%Z
  ∧ worn_pipe ∈ pool worn_handler eng_spa
  ∧ (worn_pipe ∈ pool (cleanPairs (H := sample_external) (λ _ _, 100%Z)
                         worn_handler) eng_spa
     ∨ worn_pipe ∈ pipelines_holding
                     (cleanPairs (H := sample_external) (λ _ _, 100%Z)
                        worn_handler)).
Proof.
  assert (pool worn_handler eng_spa = [worn_pipe; young_pipe]) as Hpool
    by (vm_compute; reflexivity).
  assert (NoDup (pid <$> pool worn_handler eng_spa)) as Hnd.
  { rewrite Hpool. cbn. repeat constructor; [|apply not_elem_of_nil].
    intros Hin%list_elem_of_singleton. discriminate. }
  assert (0 < users worn_pipe)%Z as Hpos by (cbn; lia).
  assert (worn_pipe ∈ pool worn_handler eng_spa) as Hin
    by (rewrite Hpool; apply list_elem_of_here).
  split; [exact Hnd|]. split; [exact Hpos|]. split; [exact Hin|].
  exact (cleanPairs_keeps_pipes_in_use (H := sample_external) worn_handler
           (λ _ _, 100%Z) eng_spa worn_pipe Hnd Hpos (or_introl Hin)).
Defined.

Lemma url_is_read_after_the_pipeline_witness :
  pool sample_handler eng_spa = []
  ∧ (TranslatePageHandler_get (H := sample_external) (sample_request "en|es" None)
       None (Some "<p>hello</p>") (sample_oracle (Some "hola")) sample_handler).1
    = PageDone (Raise (HTTPError 400))
  ∧ pool (TranslatePageHandler_get (H := sample_external)
            (sample_request "en|es" None) None (Some "<p>hello</p>")
            (sample_oracle (Some "hola")) sample_handler).2 eng_spa
    = [makePipeline 0].
Proof.
  assert (pair_name (toAlpha3Code (External := sample_external) "en",
                     toAlpha3Code (External := sample_external) "es")
          ∈ pairs (config sample_handler)) as Hin.
  { apply (bool_decide_unpack _). vm_compute. exact I. }
  assert (pool sample_handler eng_spa = []) as Hempty by (vm_compute; reflexivity).
  destruct (url_is_read_after_the_pipeline (H := sample_external) sample_handler
              (sample_request "en|es" None) (sample_oracle (Some "hola"))
              (Some "<p>hello</p>") "en|es" "en" "es"
              eq_refl eq_refl Hin Hempty eq_refl)
    as (_ & Hres & Hpool & _).
  split; [exact Hempty|]. split; [exact Hres|exact Hpool].
Defined.

Lemma TranslateDocHandler_get_checks_witness :
  doc_langpair big_doc = Some "en|es"
  ∧ ¬ refused (H := sample_external) sample_config "en|es"
  ∧ TranslateDocHandler_get (H := sample_external) sample_config big_doc
    = ([DocSendError 413], None).
Proof.
  assert (¬ refused (H := sample_external) sample_config "en|es") as Hacc.
  { intros [Hno|(c1 & c2 & [= <- <-] & Hout)]; [by destruct (Hno "en" "es")|].
    apply Hout. apply (bool_decide_unpack _). vm_compute. exact I. }
  destruct (TranslateDocHandler_get_checks (H := sample_external) sample_config
              big_doc "en|es" eq_refl) as (_ & _ & Hsize & _).
  split; [reflexivity|]. split; [exact Hacc|].
  apply (Hsize Hacc 40000000%Z eq_refl). lia.
Defined.

Lemma maybeStripMarks_accounting_witness :
  missingFreqsDb sample_handler = Some []
  ∧ ∃ noted,
      missingFreqsDb (maybeStripMarks false eng_spa "*foo bar" sample_handler).2
      = Some ([] ++ noted)
      ∧ String.length (maybeStripMarks false eng_spa "*foo bar" sample_handler).1
        + length noted = String.length "*foo bar".
Proof.
  split; [reflexivity|].
  destruct (maybeStripMarks_accounting sample_handler [] eng_spa "*foo bar" eq_refl)
    as [(noted & Hdb & Hlen & _) _].
  exists noted. split; [exact Hdb|exact Hlen].
Defined.
